(** * taipo.common: entity-annotation scanning and stripping

    A shallow embedding of [src/taipo/common.py]: the four text functions
    [entity_names], [gen_curly_ents], [curly_entity_items] and
    [replace_ent_assignment], together with the Python string primitives
    and the part of the [parse] package they rest on.

    Python's [str] is modelled by [string]; a Python [int] by [Z], so that
    the [-1] sentinel of [str.find] and negative slice bounds behave as in
    the interpreter. *)

From Stdlib Require Import ZArith Lia Ascii String List.
From stdpp Require Import base option list strings gmap.

(** ** Python [str] primitives *)

Module Py.

Definition len (s : string) : Z := Z.of_nat (String.length s).

(** [s.startswith(p)] *)
Fixpoint startswith (s p : string) : bool :=
  match p, s with
  | EmptyString, _ => true
  | String _ _, EmptyString => false
  | String b p', String a s' => if Ascii.eqb a b then startswith s' p' else false
  end.

Fixpoint drop (n : nat) (s : string) : string :=
  match n, s with
  | O, _ => s
  | S _, EmptyString => EmptyString
  | S k, String _ s' => drop k s'
  end.

Fixpoint take (n : nat) (s : string) : string :=
  match n, s with
  | O, _ => EmptyString
  | S _, EmptyString => EmptyString
  | S k, String a s' => String a (take k s')
  end.

(** Lowest index at which [sub] occurs in [s], if any. *)
Fixpoint index_of (s sub : string) : option nat :=
  if startswith s sub then Some O
  else match s with
       | EmptyString => None
       | String _ s' => S <$> index_of s' sub
       end.

(** [s.find(sub)]: the lowest index, or [-1] when [sub] does not occur. *)
Definition find (s sub : string) : Z :=
  match index_of s sub with
  | Some i => Z.of_nat i
  | None => (-1)%Z
  end.

(** [sub in s] *)
Definition contains (s sub : string) : bool :=
  match index_of s sub with Some _ => true | None => false end.

(** Slice bounds: a negative bound counts from the end, and every bound
    is clipped to [0 .. len]. *)
Definition clip (n i : Z) : Z :=
  if (i <? 0)%Z then Z.max (i + n) 0 else Z.min i n.

(** [s[a:b]] *)
Definition slice (s : string) (a b : Z) : string :=
  let lo := clip (len s) a in
  let hi := clip (len s) b in
  take (Z.to_nat (hi - lo)) (drop (Z.to_nat lo) s).

(** [s[a:]] *)
Definition slice_from (s : string) (a : Z) : string :=
  drop (Z.to_nat (clip (len s) a)) s.

(** [s.replace(old, new)] for a non-empty [old]: occurrences are found
    left to right and do not overlap.  [skip] counts the characters of a
    replaced occurrence that are still to be passed over. *)
Fixpoint replace_go (old new : string) (skip : nat) (s : string) : string :=
  match s with
  | EmptyString => EmptyString
  | String a s' =>
      match skip with
      | S k => replace_go old new k s'
      | O =>
          if startswith s old
          then new +:+ replace_go old new (String.length old - 1) s'
          else String a (replace_go old new O s')
      end
  end.

(** With an empty [old], Python puts [new] before every character and
    at the end. *)
Fixpoint intersperse (new : string) (s : string) : string :=
  match s with
  | EmptyString => new
  | String a s' => new +:+ String a (intersperse new s')
  end.

Definition replace (s old new : string) : string :=
  match old with
  | EmptyString => intersperse new s
  | String _ _ => replace_go old new O s
  end.

(** [s.split(sep)] for a non-empty [sep] (Python raises [ValueError] on
    an empty one; the program only splits on [" "]).  The head of the
    result is the token under construction. *)
Fixpoint split_go (sep : string) (skip : nat) (s : string) : list string :=
  match s with
  | EmptyString => [EmptyString]
  | String a s' =>
      match skip with
      | S k => split_go sep k s'
      | O =>
          if startswith s sep
          then EmptyString :: split_go sep (String.length sep - 1) s'
          else match split_go sep O s' with
               | tok :: rest => String a tok :: rest
               | [] => [String a EmptyString]
               end
      end
  end.

Definition split (s sep : string) : list string := split_go sep O s.

End Py.

(** ** The [parse] package, as far as the program uses it

    [parse.compile(fmt)] turns a format into a regular expression: literal
    text matches itself, and a field [{name}] without a type becomes the
    named group [(?P<name>.+?)], a lazy run of one or more arbitrary
    characters (the expression is compiled with [re.DOTALL]).  The two
    formats of the program are

      ["({entity})"]              giving  [\((?P<entity>.+?)\)]
      ["[{entity}]({ent_name})"]  giving  [\[(?P<entity>.+?)\]\((?P<ent_name>.+?)\)]

    Their literals are punctuation, so [re.IGNORECASE] changes nothing. *)

Module Parse.

Inductive part : Type :=
| Lit (text : string)
| Field (name : string).

Definition parser : Type := list part.

(** The [named] dictionary of a [parse.Result], in field order. *)
Definition named : Type := list (string * string).

Definition flush (lit : string) (ps : list part) : list part :=
  match lit with
  | EmptyString => ps
  | String _ _ => Lit lit :: ps
  end.

(** Formats made of literal text and [{name}] fields (no [{{] escapes,
    no type specifiers: the program has none).  [cur] is the literal or
    the field name read so far, [infield] tells which. *)
Fixpoint compile_go (fmt : string) (infield : bool) (cur : string) : list part :=
  match fmt with
  | EmptyString => flush cur []
  | String a fmt' =>
      if infield then
        if Ascii.eqb a "}" then Field cur :: compile_go fmt' false EmptyString
        else compile_go fmt' true (cur +:+ String a EmptyString)
      else
        if Ascii.eqb a "{" then flush cur (compile_go fmt' true EmptyString)
        else compile_go fmt' false (cur +:+ String a EmptyString)
  end.

Definition compile (fmt : string) : parser := compile_go fmt false EmptyString.

(** A lazy field [(?P<n>.+?)] followed by the rest of the expression
    [k]: take one more character at a time, and stop as soon as [k]
    matches what is left. *)
Fixpoint lazy_field (k : string → option (named * string)) (n : string)
    (taken : string) (s : string) : option (named * string) :=
  match s with
  | EmptyString => None
  | String a s' =>
      let taken' := taken +:+ String a EmptyString in
      match k s' with
      | Some (fs, rest) => Some ((n, taken') :: fs, rest)
      | None => lazy_field k n taken' s'
      end
  end.

(** Match the expression at the start of [s]: the fields and the text
    left after the match. *)
Fixpoint match_here (p : parser) (s : string) : option (named * string) :=
  match p with
  | [] => Some ([], s)
  | Lit l :: p' =>
      if Py.startswith s l then match_here p' (Py.drop (String.length l) s)
      else None
  | Field n :: p' => lazy_field (match_here p') n EmptyString s
  end.

(** [re.search]: the leftmost position at which the expression matches. *)
Fixpoint search (p : parser) (s : string) : option (named * string) :=
  match match_here p s with
  | Some r => Some r
  | None =>
      match s with
      | EmptyString => None
      | String _ s' => search p s'
      end
  end.

(** [parser.findall(s)], iterated to the end: search, then search again
    from the end of the match.  Every match of the program's two
    expressions is at least three characters long, so [length s] rounds
    are enough (lemma [findall_unfold]). *)
Fixpoint findall_loop (rounds : nat) (p : parser) (s : string) : list named :=
  match rounds with
  | O => []
  | S k =>
      match search p s with
      | None => []
      | Some (fs, rest) => fs :: findall_loop k p rest
      end
  end.

Definition findall (p : parser) (s : string) : list named :=
  findall_loop (String.length s) p s.

(** [d[key]]; the keys asked for are the fields of the format, which
    every result has. *)
Fixpoint getitem (d : named) (key : string) : string :=
  match d with
  | [] => EmptyString
  | (k, v) :: d' => if String.eqb k key then v else getitem d' key
  end.

End Parse.

(** ** pandas: [Series.unique], values in order of first appearance *)

Fixpoint unique (l : list string) : list string :=
  match l with
  | [] => []
  | x :: l' => x :: filter (λ y, y ≠ x) (unique l')
  end.

(** ** The program *)

(** [entity_names] *)
Definition entity_names (rasa_strings : list string) : list string :=
  let r := Parse.compile "({entity})" in
  let results := map (Parse.findall r) rasa_strings in
  let flat_results := concat results in
  if bool_decide (length flat_results = 0) then []
  else unique (map (λ d, Parse.getitem d "entity") flat_results).

(** One round of the [while] loop of [gen_curly_ents]: [None] when the
    loop condition fails, otherwise the pair yielded and the text the
    next round starts from. *)
Definition gen_curly_step (text : string) : option ((string * string) * string) :=
  if bool_decide (Py.find text "[" ≠ (-1)%Z) then
    let sq1 := Py.find text "[" in
    let sq2 := Py.find (Py.slice_from text sq1) "]" in
    let br1 := Py.find (Py.slice_from text (sq1 + sq2)) "{" in
    let br2 := Py.find (Py.slice_from text (sq1 + sq2 + br1)) "}" in
    let ent := Py.slice text sq1 (sq1 + sq2 + 1) in
    let curly_bit := Py.slice text (sq1 + sq2 + br1) (sq1 + sq2 + br1 + br2 + 1) in
    Some ((ent, curly_bit), Py.slice_from text (sq1 + sq2 + br1 + br2))
  else None.

(** The generator run to exhaustion: all pairs yielded, or [None] when
    the loop is still running after [fuel] rounds. *)
Fixpoint gen_curly_ents (fuel : nat) (text : string) : option (list (string * string)) :=
  match gen_curly_step text with
  | None => Some []
  | Some (yielded, text') =>
      match fuel with
      | O => None
      | S k => cons yielded <$> gen_curly_ents k text'
      end
  end.

(** The chain of [replace] calls and the [split] of [curly_entity_items]. *)
Definition cleaned (curly : string) : list string :=
  Py.split
    (Py.replace (Py.replace (Py.replace (Py.replace curly ":" " ") "{" "") "}" "") "," " ")
    " ".

(** The innermost loop: append the non-empty items. *)
Definition append_items (results : list string) (items : list string) : list string :=
  foldl (λ res item, if bool_decide (item ≠ EmptyString) then res ++ [item] else res)
        results items.

(** The loop over the pairs of one text. *)
Definition append_spans (results : list string) (spans : list (string * string)) : list string :=
  foldl (λ res span, append_items res (cleaned span.2)) results spans.

(** The loop over the texts; [None] when a generator does not finish. *)
Fixpoint collect_items (fuel : nat) (results : list string) (texts : list string)
  : option (list string) :=
  match texts with
  | [] => Some results
  | text :: texts' =>
      match gen_curly_ents fuel text with
      | None => None
      | Some spans => collect_items fuel (append_spans results spans) texts'
      end
  end.

(** [curly_entity_items]: [list(set(results))].  Python leaves the order
    of that list open; here it is the order of [elements]. *)
Definition curly_entity_items (fuel : nat) (texts : list string) : option (list string) :=
  results ← collect_items fuel [] texts;
  Some (elements (list_to_set results : gset string)).

(** The body of the outer loop of [replace_ent_assignment] for one text:
    the matches are found in the text as it comes in, then applied one
    after the other to the text as it stands. *)
Definition strip_found (t : string) (found : Parse.named) : string :=
  let t := Py.replace t ("[" +:+ Parse.getitem found "entity" +:+ "]")
                        (Parse.getitem found "entity") in
  Py.replace t ("(" +:+ Parse.getitem found "ent_name" +:+ ")") "".

Definition strip_text (t : string) : string :=
  let parser := Parse.compile "[{entity}]({ent_name})" in
  foldl strip_found t (Parse.findall parser t).

(** [replace_ent_assignment] *)
Definition replace_ent_assignment (texts : list string) : list string :=
  foldl (λ results t, results ++ [strip_text t]) [] texts.

(** ** Vocabulary of the statements *)

(** The characters of a text. *)
Definition chars (s : string) : list ascii := String.list_ascii_of_string s.

(** A parenthesised run [(<name>)]: an opening parenthesis, at least one
    character, a closing parenthesis. *)
Definition has_paren_run (t : string) : Prop :=
  ∃ pre name post, name ≠ "" ∧ t = pre +:+ "(" +:+ name +:+ ")" +:+ post.

(** A full annotation [[<entity>](<ent_name>)] with non-empty parts. *)
Definition has_annotation (t : string) : Prop :=
  ∃ pre x y post,
    x ≠ "" ∧ y ≠ "" ∧ t = pre +:+ "[" +:+ x +:+ "](" +:+ y +:+ ")" +:+ post.


(** Texts built from plain stretches and annotations [[x](y)], none of
    whose parts holds a bracket or a parenthesis. *)
Inductive segment : Type :=
| Plain (s : string)
| Annot (x y : string).

Definition delimiter (c : ascii) : bool :=
  bool_decide (c ∈ ["["; "]"; "("; ")"]%char).

Definition plain (s : string) : bool := forallb (λ c, negb (delimiter c)) (chars s).

Definition nonempty (s : string) : bool :=
  match s with EmptyString => false | String _ _ => true end.

Definition wf_segment (seg : segment) : bool :=
  match seg with
  | Plain s => plain s
  | Annot x y => plain x && nonempty x && plain y && nonempty y
  end.

Definition well_formed (segs : list segment) : bool := forallb wf_segment segs.

Definition render_segment (seg : segment) : string :=
  match seg with
  | Plain s => s
  | Annot x y => "[" +:+ x +:+ "](" +:+ y +:+ ")"
  end.

Fixpoint render (segs : list segment) : string :=
  match segs with
  | [] => ""
  | seg :: segs' => render_segment seg +:+ render segs'
  end.

(** The same text with every annotation reduced to its entity text. *)
Fixpoint stripped (segs : list segment) : string :=
  match segs with
  | [] => ""
  | Plain s :: segs' => s +:+ stripped segs'
  | Annot x _ :: segs' => x +:+ stripped segs'
  end.

(** The tokens of a curly span in the words of the specification: strip
    the braces, put a space for every [:] and [,], split on single spaces,
    drop the empty tokens. *)
Definition spec_tokens (curly : string) : list string :=
  let inner := Py.replace (Py.replace curly "{" "") "}" "" in
  let spaced := Py.replace (Py.replace inner ":" " ") "," " " in
  filter (λ tok, tok ≠ "") (Py.split spaced " ").

(** Character-wise substitution: every character [c] gives way to the
    string [f c].  Replacing a one-character [old] is such a substitution
    (lemma [replace_char]). *)
Fixpoint subst_chars (f : ascii → string) (s : string) : string :=
  match s with
  | EmptyString => EmptyString
  | String a s' => f a +:+ subst_chars f s'
  end.

Definition replace_char (a : ascii) (new : string) (c : ascii) : string :=
  if Ascii.eqb c a then new else String c EmptyString.

(** What the chain of [replace] calls of [curly_entity_items] does to one
    character of a curly span. *)
Definition token_char (c : ascii) : string :=
  if (Ascii.eqb c ":" || Ascii.eqb c ",")%bool then " "
  else if (Ascii.eqb c "{" || Ascii.eqb c "}")%bool then ""
  else String c "".

(** The matches the scanner is expected to report on such a text. *)
Definition named_of (pr : string * string) : Parse.named :=
  [("entity", pr.1); ("ent_name", pr.2)].

Fixpoint pairs (segs : list segment) : list (string * string) :=
  match segs with
  | [] => []
  | Plain _ :: segs' => pairs segs'
  | Annot x y :: segs' => (x, y) :: pairs segs'
  end.

(** Texts half-way through the stripper: plain stretches and delimited
    bodies, [[body]] ([k = false]) or [(body)] ([k = true]). *)
Definition opener (k : bool) : ascii := if k then "(" else "[".
Definition closer (k : bool) : ascii := if k then ")" else "]".

Definition wrap (k : bool) (body : string) : string :=
  String (opener k) (body +:+ String (closer k) "").

Inductive piece : Type :=
| Text (s : string)
| Wrapped (k : bool) (body : string).

Definition render_piece (p : piece) : string :=
  match p with
  | Text s => s
  | Wrapped k body => wrap k body
  end.

Fixpoint render_pieces (ps : list piece) : string :=
  match ps with
  | [] => ""
  | p :: ps' => render_piece p +:+ render_pieces ps'
  end.

Definition piece_ok (p : piece) : bool :=
  match p with
  | Text s => plain s
  | Wrapped _ body => plain body
  end.

Fixpoint pieces (segs : list segment) : list piece :=
  match segs with
  | [] => []
  | Plain s :: segs' => Text s :: pieces segs'
  | Annot x y :: segs' => Wrapped false x :: Wrapped true y :: pieces segs'
  end.

(** One [replace] of the stripper, seen on the pieces. *)
Definition settle (k : bool) (body new : string) (p : piece) : piece :=
  match p with
  | Text _ => p
  | Wrapped k' b => if bool_decide (k' = k ∧ b = body) then Text new else p
  end.

Definition strip_pieces (ps : list piece) (pr : string * string) : list piece :=
  map (settle true pr.2 "") (map (settle false pr.1 pr.1) ps).

Definition erase_piece (p : piece) : string :=
  match p with
  | Text s => s
  | Wrapped false body => body
  | Wrapped true _ => ""
  end.

Fixpoint erase_pieces (ps : list piece) : string :=
  match ps with
  | [] => ""
  | p :: ps' => erase_piece p +:+ erase_pieces ps'
  end.

(** Texts for the curly scanner: stretches without an opening bracket,
    and annotations [[x] mid {body}] in which [x] holds no []], [mid] no
    [{] and [body] no [}]. *)
Inductive csegment : Type :=
| CPlain (s : string)
| CAnnot (x mid body : string).

Definition lacks (c : ascii) (s : string) : bool :=
  forallb (λ d, negb (Ascii.eqb d c)) (chars s).

Definition cwf_segment (seg : csegment) : bool :=
  match seg with
  | CPlain s => lacks "[" s
  | CAnnot x mid body => lacks "]" x && lacks "{" mid && lacks "}" body
  end.

Definition curly_well_formed (segs : list csegment) : bool := forallb cwf_segment segs.

Definition render_csegment (seg : csegment) : string :=
  match seg with
  | CPlain s => s
  | CAnnot x mid body => "[" +:+ x +:+ "]" +:+ mid +:+ "{" +:+ body +:+ "}"
  end.

Fixpoint render_curly (segs : list csegment) : string :=
  match segs with
  | [] => ""
  | seg :: segs' => render_csegment seg +:+ render_curly segs'
  end.

(** The pairs the scanner is expected to yield on such a text. *)
Fixpoint curly_spans (segs : list csegment) : list (string * string) :=
  match segs with
  | [] => []
  | CPlain _ :: segs' => curly_spans segs'
  | CAnnot x _ body :: segs' =>
      ("[" +:+ x +:+ "]", "{" +:+ body +:+ "}") :: curly_spans segs'
  end.

(** All names the scanner of [entity_names] reports, in scan order. *)
Definition all_names (texts : list string) : list string :=
  map (λ d, Parse.getitem d "entity")
      (concat (map (Parse.findall (Parse.compile "({entity})")) texts)).

(** Parsers whose matches are never empty: each search leaves less text
    than it was given. *)
Definition progressive (p : Parse.parser) : Prop :=
  ∀ s fs rest,
    Parse.search p s = Some (fs, rest) → String.length rest < String.length s.

(** ** Sanity checks on concrete inputs *)

Example compile_paren :
  Parse.compile "({entity})" = [Parse.Lit "("; Parse.Field "entity"; Parse.Lit ")"].
Proof. reflexivity. Qed.

Example compile_annotation :
  Parse.compile "[{entity}]({ent_name})"
  = [Parse.Lit "["; Parse.Field "entity"; Parse.Lit "]("; Parse.Field "ent_name"; Parse.Lit ")"].
Proof. reflexivity. Qed.

(** ** Strings *)

Section strings.
Implicit Types s p r : string.

Lemma str_app_cons a s r : String a s +:+ r = String a (s +:+ r).
Proof. reflexivity. Qed.

Lemma str_app_nil_l s : "" +:+ s = s.
Proof. reflexivity. Qed.

Lemma str_app_nil_r s : s +:+ "" = s.
Proof. induction s as [|a s IH]; [done|]. by rewrite str_app_cons, IH. Qed.

Lemma str_app_assoc s p r : (s +:+ p) +:+ r = s +:+ p +:+ r.
Proof. induction s as [|a s IH]; [done|]. by rewrite !str_app_cons, IH. Qed.

Lemma str_length_app s r : String.length (s +:+ r) = String.length s + String.length r.
Proof. induction s as [|a s IH]; [done|]. rewrite str_app_cons. simpl. by rewrite IH. Qed.

Lemma chars_app s r : chars (s +:+ r) = chars s ++ chars r.
Proof. induction s as [|a s IH]; [done|]. rewrite str_app_cons. simpl. by rewrite IH. Qed.

Lemma startswith_nil s : Py.startswith s "" = true.
Proof. by destruct s. Qed.

Lemma startswith_cons a b s p :
  Py.startswith (String a s) (String b p) = true ↔ a = b ∧ Py.startswith s p = true.
Proof.
  simpl. destruct (Ascii.eqb_spec a b) as [Hab|Hab]; [tauto|].
  split; [done|]. by intros [? _].
Qed.

Lemma startswith_app p s : Py.startswith (p +:+ s) p = true.
Proof.
  induction p as [|a p IH]; [apply startswith_nil|].
  rewrite str_app_cons. apply startswith_cons. done.
Qed.

Lemma drop_app p s : Py.drop (String.length p) (p +:+ s) = s.
Proof. induction p as [|a p IH]; [by destruct s|]. by rewrite str_app_cons. Qed.

Lemma startswith_inv s p :
  Py.startswith s p = true → s = p +:+ Py.drop (String.length p) s.
Proof.
  revert s. induction p as [|b p IH]; intros s H.
  - by destruct s.
  - destruct s as [|a s]; [done|].
    apply startswith_cons in H as [Hab H']. subst b. rewrite str_app_cons. simpl.
    f_equal. by apply IH.
Qed.

Lemma startswith_head a b s p : a ≠ b → Py.startswith (String a s) (String b p) = false.
Proof. intros Hne. simpl. by destruct (Ascii.eqb_spec a b). Qed.

Lemma length_drop n s : String.length (Py.drop n s) = String.length s - n.
Proof.
  revert s. induction n as [|n IH]; intros [|a s]; simpl; auto with lia.
Qed.

End strings.

(** Bring both sides of an equation between concatenations into the
    right-nested form. *)
Ltac str_norm :=
  repeat first
    [ rewrite str_app_assoc | rewrite str_app_cons | rewrite str_app_nil_l ].

(** ** [str.replace] *)

Section replace.
Implicit Types s p r old new : string.

Lemma replace_go_skip old new p s :
  Py.replace_go old new (String.length p) (p +:+ s) = Py.replace_go old new 0 s.
Proof.
  induction p as [|a p IH]; [done|]. by rewrite str_app_cons.
Qed.

Lemma replace_cons_hit b old new s :
  Py.replace (String b old +:+ s) (String b old) new
  = new +:+ Py.replace s (String b old) new.
Proof.
  unfold Py.replace. rewrite str_app_cons.
  change (Py.replace_go (String b old) new 0 (String b (old +:+ s)))
    with (if Py.startswith (String b (old +:+ s)) (String b old)
          then new +:+ Py.replace_go (String b old) new
                         (String.length (String b old) - 1) (old +:+ s)
          else String b (Py.replace_go (String b old) new 0 (old +:+ s))).
  rewrite <- str_app_cons, startswith_app. simpl String.length.
  replace (S (String.length old) - 1) with (String.length old) by lia.
  by rewrite replace_go_skip.
Qed.

Lemma replace_cons_miss a old new s :
  old ≠ "" →
  Py.startswith (String a s) old = false →
  Py.replace (String a s) old new = String a (Py.replace s old new).
Proof.
  intros Hold Hmiss. destruct old as [|b old]; [done|].
  unfold Py.replace. simpl Py.replace_go. simpl in Hmiss. by rewrite Hmiss.
Qed.

Lemma replace_nil old new : old ≠ "" → Py.replace "" old new = "".
Proof. by destruct old. Qed.

(** A stretch in which the first character of [old] does not occur is
    passed over unchanged. *)
Lemma replace_pass b old new p s :
  b ∉ chars p →
  Py.replace (p +:+ s) (String b old) new = p +:+ Py.replace s (String b old) new.
Proof.
  induction p as [|a p IH]; intros Hb; [done|].
  rewrite str_app_cons. simpl in Hb. apply not_elem_of_cons in Hb as [Hne Hb].
  rewrite replace_cons_miss; [|done|by apply startswith_head].
  by rewrite IH.
Qed.

Lemma replace_absent b old new s :
  b ∉ chars s → Py.replace s (String b old) new = s.
Proof.
  intros Hb. rewrite <- (str_app_nil_r s) at 1.
  rewrite replace_pass by done. by rewrite str_app_nil_r.
Qed.

Lemma subst_chars_app f s r :
  subst_chars f (s +:+ r) = subst_chars f s +:+ subst_chars f r.
Proof.
  induction s as [|a s IH]; [done|].
  rewrite str_app_cons. simpl. by rewrite IH, str_app_assoc.
Qed.

Lemma subst_chars_subst f g s :
  subst_chars g (subst_chars f s) = subst_chars (λ c, subst_chars g (f c)) s.
Proof.
  induction s as [|a s IH]; [done|]. simpl. by rewrite subst_chars_app, IH.
Qed.

Lemma subst_chars_ext f g s :
  (∀ c, f c = g c) → subst_chars f s = subst_chars g s.
Proof. intros Hfg. induction s as [|a s IH]; [done|]. simpl. by rewrite Hfg, IH. Qed.

Lemma replace_char_subst a new s :
  Py.replace s (String a "") new = subst_chars (replace_char a new) s.
Proof.
  induction s as [|c s IH]; [done|].
  simpl subst_chars. unfold replace_char at 1.
  destruct (Ascii.eqb_spec c a) as [->|Hne].
  - change (String a s) with (String a "" +:+ s).
    by rewrite replace_cons_hit, IH.
  - rewrite replace_cons_miss; [by rewrite IH|done|by apply startswith_head].
Qed.

Lemma chars_subst_chars f s c :
  c ∈ chars (subst_chars f s) → ∃ a, a ∈ chars s ∧ c ∈ chars (f a).
Proof.
  induction s as [|a s IH]; simpl; [by intros ?%elem_of_nil|].
  rewrite chars_app, elem_of_app. intros [Hc|Hc].
  - exists a. split; [left|done].
  - destruct (IH Hc) as (a' & ? & ?). exists a'. split; [by right|done].
Qed.

End replace.

(** ** [str.split] on a one-character separator *)

Section split.

Lemma split_go_nonempty sep skip s : Py.split_go sep skip s ≠ [].
Proof.
  revert skip. induction s as [|a s IH]; intros skip; [done|].
  destruct skip as [|k]; [|apply IH].
  cbn [Py.split_go]. destruct (Py.startswith (String a s) sep); [done|].
  by destruct (Py.split_go sep 0 s).
Qed.

Lemma split_char_tokens b s tok c :
  tok ∈ Py.split s (String b "") → c ∈ chars tok → c ≠ b ∧ c ∈ chars s.
Proof.
  unfold Py.split. revert tok. induction s as [|a s IH]; intros tok.
  - simpl. intros ->%list_elem_of_singleton. by intros ?%elem_of_nil.
  - simpl Py.split_go. destruct (Ascii.eqb_spec a b) as [->|Hne].
    + rewrite startswith_nil. simpl.
      intros [->|Htok]%elem_of_cons; [by intros ?%elem_of_nil|].
      intros Hc. destruct (IH _ Htok Hc). split; [done|by right].
    + destruct (Py.split_go (String b "") 0 s) as [|tok0 rest] eqn:Hs.
      { by destruct (split_go_nonempty (String b "") 0 s). }
      intros [->|Htok]%elem_of_cons.
      * simpl. intros [->|Hc]%elem_of_cons; [split; [done|left]|].
        destruct (IH tok0 ltac:(left) Hc). split; [done|by right].
      * intros Hc. destruct (IH tok ltac:(by right) Hc). split; [done|by right].
Qed.

End split.

(** ** The matcher *)

Section matcher.
Import Parse.
Implicit Types (p : parser) (s u v w : string) (fs : named).

Lemma lazy_field_sound k n taken s fs rest :
  lazy_field k n taken s = Some (fs, rest) →
  ∃ v fs' u, v ≠ "" ∧ fs = (n, taken +:+ v) :: fs' ∧ s = v +:+ u
             ∧ k u = Some (fs', rest).
Proof.
  revert taken. induction s as [|a s IH]; intros taken H; [done|].
  cbn [lazy_field] in H. destruct (k s) as [[fs' rest']|] eqn:Hk.
  - injection H as <- <-. by exists (String a ""), fs', s.
  - apply IH in H as (v & fs' & u & Hv & -> & -> & Hu).
    exists (String a v), fs', u. by rewrite str_app_assoc.
Qed.

Lemma lazy_field_complete k n taken v w :
  v ≠ "" → is_Some (k w) → is_Some (lazy_field k n taken (v +:+ w)).
Proof.
  revert taken. induction v as [|a v IH]; intros taken Hv Hk; [done|].
  rewrite str_app_cons. cbn [lazy_field].
  destruct (k (v +:+ w)) as [[fs rest]|] eqn:Hkv; [done|].
  apply IH; [|done]. intros ->. rewrite str_app_nil_l in Hkv.
  rewrite Hkv in Hk. by destruct Hk.
Qed.

(** A field runs over a stretch [u] free of the character [d] with
    which the rest of the expression has to start. *)
Lemma lazy_field_run d k n taken u w fs rest :
  u ≠ "" → d ∉ chars u →
  (∀ a t, a ≠ d → k (String a t) = None) →
  k w = Some (fs, rest) →
  lazy_field k n taken (u +:+ w) = Some ((n, taken +:+ u) :: fs, rest).
Proof.
  intros Hu Hd Hk Hw. revert taken Hu Hd.
  induction u as [|a u IH]; intros taken Hu Hd; [done|].
  apply not_elem_of_cons in Hd as [Hda Hd].
  rewrite str_app_cons. cbn [lazy_field]. destruct u as [|b u].
  - rewrite str_app_nil_l, Hw. done.
  - rewrite str_app_cons, Hk by (apply not_elem_of_cons in Hd as [? _]; done).
    rewrite <- str_app_cons, IH by done. by rewrite str_app_assoc.
Qed.

Lemma match_lit l p u : match_here (Lit l :: p) (l +:+ u) = match_here p u.
Proof. cbn [match_here]. by rewrite startswith_app, drop_app. Qed.

Lemma match_lit_inv l p s r :
  match_here (Lit l :: p) s = Some r → ∃ u, s = l +:+ u ∧ match_here p u = Some r.
Proof.
  cbn [match_here]. destruct (Py.startswith s l) eqn:Hl; [|done].
  intros H. eexists. split; [by apply startswith_inv|done].
Qed.

Lemma match_lit_head a b l p s :
  a ≠ b → match_here (Lit (String b l) :: p) (String a s) = None.
Proof. intros Hne. cbn [match_here]. by rewrite startswith_head. Qed.

Lemma match_lit_nil l b p : match_here (Lit (String b l) :: p) "" = None.
Proof. done. Qed.

Lemma match_field_inv n p s fs rest :
  match_here (Field n :: p) s = Some (fs, rest) →
  ∃ v fs' u, v ≠ "" ∧ fs = (n, v) :: fs' ∧ s = v +:+ u
             ∧ match_here p u = Some (fs', rest).
Proof. cbn [match_here]. apply lazy_field_sound. Qed.

Lemma match_field_complete n p v u :
  v ≠ "" → is_Some (match_here p u) → is_Some (match_here (Field n :: p) (v +:+ u)).
Proof. cbn [match_here]. apply lazy_field_complete. Qed.

Lemma match_field_run d l n p v u fs rest :
  v ≠ "" → d ∉ chars v →
  match_here (Lit (String d l) :: p) u = Some (fs, rest) →
  match_here (Field n :: Lit (String d l) :: p) (v +:+ u) = Some ((n, v) :: fs, rest).
Proof.
  intros Hv Hd Hu. change (match_here (Field n :: ?q) ?t)
    with (lazy_field (match_here q) n "" t).
  erewrite (lazy_field_run d); [done..| |done].
  intros a t Ha. by apply match_lit_head.
Qed.

Lemma search_hit p s r : match_here p s = Some r → search p s = Some r.
Proof. intros H. destruct s; simpl; by rewrite H. Qed.

Lemma search_sound p s r :
  search p s = Some r → ∃ pre u, s = pre +:+ u ∧ match_here p u = Some r.
Proof.
  induction s as [|a s IH]; simpl.
  - destruct (match_here p "") eqn:Hm; [|done]. intros [= ->]. by exists "", "".
  - destruct (match_here p (String a s)) eqn:Hm.
    + intros [= ->]. by exists "", (String a s).
    + intros (pre & u & -> & Hu)%IH. by exists (String a pre), u.
Qed.

Lemma search_complete p pre u :
  is_Some (match_here p u) → is_Some (search p (pre +:+ u)).
Proof.
  intros [r Hr]. induction pre as [|a pre IH].
  - rewrite str_app_nil_l. exists r. by apply search_hit.
  - rewrite str_app_cons. simpl. by destruct (match_here p (String a (pre +:+ u))).
Qed.

(** The search passes over a stretch free of the first character of the
    expression. *)
Lemma search_pass d l p pre u :
  d ∉ chars pre →
  search (Lit (String d l) :: p) (pre +:+ u) = search (Lit (String d l) :: p) u.
Proof.
  induction pre as [|a pre IH]; intros Hd; [done|].
  apply not_elem_of_cons in Hd as [Hda Hd].
  rewrite str_app_cons. cbn [search]. rewrite match_lit_head by done. by apply IH.
Qed.

Lemma search_absent d l p s :
  d ∉ chars s → search (Lit (String d l) :: p) s = None.
Proof.
  intros Hd. rewrite <- (str_app_nil_r s), search_pass by done. done.
Qed.

Lemma findall_loop_enough p n m s :
  progressive p → String.length s ≤ n → String.length s ≤ m →
  findall_loop n p s = findall_loop m p s.
Proof.
  intros Hp. revert m s. induction n as [|n IH]; intros [|m] s Hn Hm; simpl; try done.
  - destruct (search p s) as [[fs rest]|] eqn:Hs; [|done]. apply Hp in Hs. lia.
  - destruct (search p s) as [[fs rest]|] eqn:Hs; [|done]. apply Hp in Hs. lia.
  - destruct (search p s) as [[fs rest]|] eqn:Hs; [|done].
    apply Hp in Hs. f_equal. apply IH; lia.
Qed.

Lemma findall_unfold p s :
  progressive p →
  findall p s = match search p s with
                | None => []
                | Some (fs, rest) => fs :: findall p rest
                end.
Proof.
  intros Hp. unfold findall.
  destruct (search p s) as [[fs rest]|] eqn:Hs.
  - pose proof (Hp _ _ _ Hs) as Hlt.
    destruct (String.length s) as [|n] eqn:Hn; [lia|]. simpl. rewrite Hs.
    f_equal. apply findall_loop_enough; [done|lia..].
  - destruct (String.length s); simpl; by rewrite ?Hs.
Qed.

Lemma findall_nil_iff p s :
  progressive p → findall p s = [] ↔ search p s = None.
Proof.
  intros Hp. rewrite findall_unfold by done.
  by destruct (search p s) as [[fs rest]|].
Qed.

End matcher.

(** ** The two expressions of the program *)

Section expressions.
Import Parse.
Implicit Types (s t u v x y : string) (fs : named).

Local Abbreviation paren_re := [Lit "("; Field "entity"; Lit ")"].
Local Abbreviation annot_re :=
  [Lit "["; Field "entity"; Lit "]("; Field "ent_name"; Lit ")"].

Lemma match_paren_inv s fs rest :
  match_here paren_re s = Some (fs, rest) →
  ∃ v, v ≠ "" ∧ fs = [("entity", v)] ∧ s = "(" +:+ v +:+ ")" +:+ rest.
Proof.
  intros (u & -> & H)%match_lit_inv.
  apply match_field_inv in H as (v & fs' & u' & Hv & -> & -> & H).
  apply match_lit_inv in H as (u'' & -> & H).
  injection H as <- <-. by exists v.
Qed.

Lemma match_paren_complete v post :
  v ≠ "" → is_Some (match_here paren_re ("(" +:+ v +:+ ")" +:+ post)).
Proof.
  intros Hv. rewrite match_lit. apply match_field_complete; [done|].
  by rewrite match_lit.
Qed.

Lemma match_annot_inv s fs rest :
  match_here annot_re s = Some (fs, rest) →
  ∃ x y, x ≠ "" ∧ y ≠ "" ∧ fs = [("entity", x); ("ent_name", y)]
         ∧ s = "[" +:+ x +:+ "](" +:+ y +:+ ")" +:+ rest.
Proof.
  intros (u & -> & H)%match_lit_inv.
  apply match_field_inv in H as (x & fs' & u' & Hx & -> & -> & H).
  apply match_lit_inv in H as (u'' & -> & H).
  apply match_field_inv in H as (y & fs'' & u3 & Hy & -> & -> & H).
  apply match_lit_inv in H as (u4 & -> & H).
  injection H as <- <-. by exists x, y.
Qed.

Lemma match_annot_complete x y post :
  x ≠ "" → y ≠ "" →
  is_Some (match_here annot_re ("[" +:+ x +:+ "](" +:+ y +:+ ")" +:+ post)).
Proof.
  intros Hx Hy. rewrite match_lit. apply match_field_complete; [done|].
  rewrite match_lit. apply match_field_complete; [done|]. by rewrite match_lit.
Qed.

(** On an annotation whose parts are free of the closing delimiters the
    match is the annotation itself. *)
Lemma match_annot_run x y rest :
  x ≠ "" → y ≠ "" → "]"%char ∉ chars x → ")"%char ∉ chars y →
  match_here annot_re ("[" +:+ x +:+ "](" +:+ y +:+ ")" +:+ rest)
  = Some ([("entity", x); ("ent_name", y)], rest).
Proof.
  intros Hx Hy Hcx Hcy. rewrite match_lit.
  apply (match_field_run "]"); [done..|]. rewrite match_lit.
  apply (match_field_run ")"); [done..|]. by rewrite match_lit.
Qed.

Lemma paren_progressive : progressive paren_re.
Proof.
  intros s fs rest (pre & u & -> & H)%search_sound.
  apply match_paren_inv in H as (v & _ & _ & ->).
  rewrite !str_length_app. simpl. lia.
Qed.

Lemma annot_progressive : progressive annot_re.
Proof.
  intros s fs rest (pre & u & -> & H)%search_sound.
  apply match_annot_inv in H as (x & y & _ & _ & _ & ->).
  rewrite !str_length_app. simpl. lia.
Qed.

Lemma search_paren_none t : search paren_re t = None ↔ ¬ has_paren_run t.
Proof.
  split.
  - intros Hs (pre & v & post & Hv & ->).
    destruct (search_complete paren_re pre _ (match_paren_complete v post Hv)) as [r Hr].
    congruence.
  - intros Hno. destruct (search paren_re t) as [[fs rest]|] eqn:Hs; [|done].
    destruct Hno. apply search_sound in Hs as (pre & u & -> & H).
    apply match_paren_inv in H as (v & Hv & _ & ->). by exists pre, v, rest.
Qed.

Lemma search_annot_none t : search annot_re t = None ↔ ¬ has_annotation t.
Proof.
  split.
  - intros Hs (pre & x & y & post & Hx & Hy & ->).
    destruct (search_complete annot_re pre _ (match_annot_complete x y post Hx Hy))
      as [r Hr].
    congruence.
  - intros Hno. destruct (search annot_re t) as [[fs rest]|] eqn:Hs; [|done].
    destruct Hno. apply search_sound in Hs as (pre & u & -> & H).
    apply match_annot_inv in H as (x & y & Hx & Hy & _ & ->).
    by exists pre, x, y, rest.
Qed.

Lemma findall_paren_nil t :
  findall (compile "({entity})") t = [] ↔ ¬ has_paren_run t.
Proof.
  rewrite compile_paren, findall_nil_iff by apply paren_progressive.
  apply search_paren_none.
Qed.


End expressions.

(** ** [entity_names] *)

Section entity_names.

Lemma unique_nil l : unique l = [] ↔ l = [].
Proof. by destruct l. Qed.

Lemma elem_of_unique x l : x ∈ unique l ↔ x ∈ l.
Proof.
  induction l as [|y l IH]; [done|]. simpl.
  rewrite !elem_of_cons, list_elem_of_filter, IH.
  destruct (decide (x = y)); tauto.
Qed.

Lemma NoDup_unique l : NoDup (unique l).
Proof.
  induction l as [|y l IH]; simpl; [constructor|].
  constructor; [|by apply NoDup_filter].
  rewrite list_elem_of_filter. by intros [? _].
Qed.

Lemma concat_nil_iff {A} (ls : list (list A)) : concat ls = [] ↔ ∀ l, l ∈ ls → l = [].
Proof.
  induction ls as [|l ls IH]; simpl.
  - split; [by intros _ l ?%elem_of_nil|done].
  - split.
    + intros [-> Hls]%app_eq_nil l' [->|Hl']%elem_of_cons; [done|].
      by apply IH.
    + intros H. rewrite (H l) by left. apply IH. intros l' Hl'. apply H. by right.
Qed.

Lemma entity_names_nil texts :
  entity_names texts = [] ↔ ∀ t, t ∈ texts → ¬ has_paren_run t.
Proof.
  unfold entity_names. cbv zeta.
  set (flat := concat _). case_bool_decide as Hlen.
  - split; [intros _|done]. intros t Ht.
    apply findall_paren_nil. apply length_zero_iff_nil in Hlen.
    apply (proj1 (concat_nil_iff _) Hlen). apply list_elem_of_In, in_map.
    by apply list_elem_of_In.
  - rewrite unique_nil. split.
    + intros Hm. apply map_eq_nil in Hm. by rewrite Hm in Hlen.
    + intros Hno. destruct Hlen. apply length_zero_iff_nil.
      apply concat_nil_iff. intros l (t & <- & Ht%list_elem_of_In)%list_elem_of_In%in_map_iff.
      apply findall_paren_nil. by apply Hno.
Qed.

End entity_names.

(** ** Indices and slices *)

Section slices.
Implicit Types (s sub : string) (i j n : nat).

Lemma drop_nil n : Py.drop n "" = "".
Proof. by destruct n. Qed.

Lemma drop_drop i j s : Py.drop i (Py.drop j s) = Py.drop (j + i) s.
Proof.
  revert s. induction j as [|j IH]; intros s; [done|].
  destruct s as [|a s]; [by rewrite drop_nil|]. apply IH.
Qed.

Lemma drop_all n s : String.length s ≤ n → Py.drop n s = "".
Proof.
  revert s. induction n as [|n IH]; intros [|a s] Hn; simpl in *; try done; [lia|].
  apply IH. lia.
Qed.

Lemma take_drop n s : Py.take n s +:+ Py.drop n s = s.
Proof.
  revert s. induction n as [|n IH]; intros [|a s]; try done.
  simpl. by rewrite str_app_cons, IH.
Qed.

Lemma length_take n s : String.length (Py.take n s) = n `min` String.length s.
Proof.
  revert s. induction n as [|n IH]; intros [|a s]; simpl; try done. by rewrite IH.
Qed.

Lemma slice_from_nat s n : Py.slice_from s (Z.of_nat n) = Py.drop n s.
Proof.
  unfold Py.slice_from, Py.clip, Py.len.
  destruct (Z.ltb_spec (Z.of_nat n) 0) as [Hneg|_]; [lia|].
  destruct (decide (n ≤ String.length s)) as [Hle|Hgt].
  - by rewrite Z.min_l, Nat2Z.id by lia.
  - rewrite Z.min_r, Nat2Z.id by lia. by rewrite !drop_all by lia.
Qed.

Lemma index_of_Some s sub i :
  Py.index_of s sub = Some i → Py.startswith (Py.drop i s) sub = true.
Proof.
  revert i. induction s as [|a s IH]; intros i.
  - cbn [Py.index_of]. destruct (Py.startswith "" sub) eqn:Hs; [|done].
    by intros [= <-].
  - cbn [Py.index_of]. destruct (Py.startswith (String a s) sub) eqn:Hs.
    + by intros [= <-].
    + destruct (Py.index_of s sub) as [k|] eqn:Hk; [|done].
      intros [= <-]. by apply IH.
Qed.

Lemma find_found s sub :
  Py.find s sub ≠ (-1)%Z →
  ∃ i, Py.find s sub = Z.of_nat i ∧ Py.startswith (Py.drop i s) sub = true.
Proof.
  unfold Py.find. destruct (Py.index_of s sub) as [i|] eqn:Hi; [|done].
  intros _. exists i. split; [done|by apply index_of_Some].
Qed.

Lemma index_of_char_absent s a :
  a ∉ chars s → Py.index_of s (String a "") = None.
Proof.
  induction s as [|c s IH]; [done|]. intros [Hne Ha]%not_elem_of_cons.
  cbn [Py.index_of]. rewrite startswith_head by done. by rewrite IH.
Qed.

Lemma index_of_absent s a sub :
  a ∉ chars s → Py.index_of s (String a sub) = None.
Proof.
  induction s as [|c s IH]; [done|]. intros [Hne Ha]%not_elem_of_cons.
  cbn [Py.index_of]. rewrite startswith_head by done. by rewrite IH.
Qed.

Lemma index_of_char_present s a :
  a ∈ chars s → is_Some (Py.index_of s (String a "")).
Proof.
  induction s as [|c s IH]; [by intros ?%elem_of_nil|].
  intros Ha. cbn [Py.index_of].
  destruct (Py.startswith (String c s) (String a "")) eqn:Hs; [done|].
  apply elem_of_cons in Ha as [->|Ha].
  - simpl in Hs. by rewrite Ascii.eqb_refl, startswith_nil in Hs.
  - destruct (IH Ha) as [k ->]. done.
Qed.

Lemma contains_char s a : Py.contains s (String a "") = false ↔ a ∉ chars s.
Proof.
  unfold Py.contains. split.
  - intros H Ha. destruct (index_of_char_present s a Ha) as [k Hk].
    by rewrite Hk in H.
  - intros Ha. by rewrite index_of_char_absent.
Qed.

Lemma contains_absent s a sub : a ∉ chars s → Py.contains s (String a sub) = false.
Proof. intros Ha. unfold Py.contains. by rewrite index_of_absent. Qed.

End slices.

(** ** [gen_curly_ents] *)

Section curly_scanner.

Lemma gen_curly_ents_unfold fuel text :
  gen_curly_ents fuel text
  = match gen_curly_step text with
    | None => Some []
    | Some (yielded, text') =>
        match fuel with
        | O => None
        | S k => cons yielded <$> gen_curly_ents k text'
        end
    end.
Proof. by destruct fuel. Qed.

(** A text that a round of the loop hands on unchanged keeps the loop
    running for ever. *)
Lemma gen_curly_ents_stuck text yielded :
  gen_curly_step text = Some (yielded, text) →
  ∀ fuel, gen_curly_ents fuel text = None.
Proof.
  intros Hstep fuel. induction fuel as [|k IH].
  - by rewrite gen_curly_ents_unfold, Hstep.
  - by rewrite gen_curly_ents_unfold, Hstep, IH.
Qed.


End curly_scanner.

(** ** [curly_entity_items] *)

Section curly_items.
Implicit Types (results items : list string) (spans : list (string * string)).

Lemma append_items_eq results items :
  append_items results items = results ++ filter (λ item, item ≠ "") items.
Proof.
  unfold append_items. revert results.
  induction items as [|item items IH]; intros results; simpl.
  - by rewrite app_nil_r.
  - rewrite IH, filter_cons. case_bool_decide; case_decide; try done.
    by rewrite <- app_assoc.
Qed.

Lemma elem_of_append_spans tok results spans :
  tok ∈ append_spans results spans
  ↔ tok ∈ results ∨ ∃ span, span ∈ spans ∧ tok ∈ cleaned span.2 ∧ tok ≠ "".
Proof.
  unfold append_spans. revert results.
  induction spans as [|span spans IH]; intros results; simpl.
  - split; [by left|]. intros [?|(span & ?%elem_of_nil & _)]; done.
  - rewrite IH, append_items_eq, elem_of_app, list_elem_of_filter. split.
    + intros [[?|[? ?]]|(span' & ? & ?)]; [by left| |].
      * right. exists span. split; [left|done].
      * right. exists span'. split; [by right|done].
    + intros [?|(span' & [->|?]%elem_of_cons & ? & ?)].
      * by left; left.
      * by left; right.
      * right. by exists span'.
Qed.

Lemma elem_of_collect_items fuel results texts out :
  collect_items fuel results texts = Some out →
  ∀ tok, tok ∈ out
         ↔ tok ∈ results
           ∨ ∃ text spans span,
               text ∈ texts ∧ gen_curly_ents fuel text = Some spans
               ∧ span ∈ spans ∧ tok ∈ cleaned span.2 ∧ tok ≠ "".
Proof.
  revert results. induction texts as [|text texts IH]; intros results; simpl.
  - intros [= <-] tok. split; [by left|].
    intros [?|(text & ? & ? & ?%elem_of_nil & _)]; done.
  - destruct (gen_curly_ents fuel text) as [spans|] eqn:Hspans; [|done].
    intros Hout tok. rewrite (IH _ Hout), elem_of_append_spans. split.
    + intros [[?|(span & ? & ?)]|(text' & spans' & span & ? & ?)]; [by left| |].
      * right. exists text, spans, span. split; [left|done].
      * right. exists text', spans', span. split; [by right|done].
    + intros [?|(text' & spans' & span & [->|?]%elem_of_cons & Hs & ? & ?)].
      * by left; left.
      * left; right. exists span. rewrite Hspans in Hs. by injection Hs as <-.
      * right. by exists text', spans', span.
Qed.

Lemma curly_entity_items_Some fuel texts res :
  curly_entity_items fuel texts = Some res →
  ∃ results, collect_items fuel [] texts = Some results
             ∧ res = elements (list_to_set results : gset string).
Proof.
  unfold curly_entity_items.
  destruct (collect_items fuel [] texts) as [results|]; [|done].
  intros [= <-]. by exists results.
Qed.

Lemma elem_of_curly_entity_items fuel texts res :
  curly_entity_items fuel texts = Some res →
  ∀ tok, tok ∈ res
         ↔ ∃ text spans span,
             text ∈ texts ∧ gen_curly_ents fuel text = Some spans
             ∧ span ∈ spans ∧ tok ∈ cleaned span.2 ∧ tok ≠ "".
Proof.
  intros (results & Hres & ->)%curly_entity_items_Some tok.
  rewrite elem_of_elements, elem_of_list_to_set, (elem_of_collect_items _ _ _ _ Hres).
  split; [|by right]. by intros [?%elem_of_nil|?].
Qed.

Lemma NoDup_curly_entity_items fuel texts res :
  curly_entity_items fuel texts = Some res → NoDup res.
Proof.
  intros (results & _ & ->)%curly_entity_items_Some. apply NoDup_elements.
Qed.



(** The chain of the program and the chain of the specification are the
    same character-wise substitution. *)
Lemma cleaned_subst curly :
  cleaned curly = Py.split (subst_chars token_char curly) " ".
Proof.
  unfold cleaned. rewrite !replace_char_subst, !subst_chars_subst. f_equal.
  apply subst_chars_ext. by intros [[] [] [] [] [] [] [] []].
Qed.

Lemma spec_tokens_subst curly :
  spec_tokens curly
  = filter (λ tok, tok ≠ "") (Py.split (subst_chars token_char curly) " ").
Proof.
  unfold spec_tokens. cbv zeta.
  rewrite !replace_char_subst, !subst_chars_subst. do 2 f_equal.
  apply subst_chars_ext. by intros [[] [] [] [] [] [] [] []].
Qed.

Lemma elem_of_spec_tokens tok curly :
  tok ∈ spec_tokens curly ↔ tok ∈ cleaned curly ∧ tok ≠ "".
Proof.
  rewrite spec_tokens_subst, cleaned_subst, list_elem_of_filter. tauto.
Qed.

Lemma token_char_chars a c :
  c ∈ chars (token_char a) →
  c = " "%char ∨ (c ≠ ":" ∧ c ≠ "," ∧ c ≠ "{" ∧ c ≠ "}")%char.
Proof.
  unfold token_char.
  destruct (Ascii.eqb_spec a ":"), (Ascii.eqb_spec a ","),
    (Ascii.eqb_spec a "{"), (Ascii.eqb_spec a "}"); simpl;
    rewrite ?elem_of_cons, ?elem_of_nil; try tauto.
  intros [->|[]]. by right.
Qed.

Lemma cleaned_chars tok curly c :
  tok ∈ cleaned curly → c ∈ chars tok →
  (c ≠ " " ∧ c ≠ ":" ∧ c ≠ "," ∧ c ≠ "{" ∧ c ≠ "}")%char.
Proof.
  rewrite cleaned_subst. intros Htok Hc.
  destruct (split_char_tokens _ _ _ _ Htok Hc) as [Hsp Hin].
  apply chars_subst_chars in Hin as (a & _ & Ha).
  destruct (token_char_chars _ _ Ha) as [?|?]; [done|tauto].
Qed.

End curly_items.

(** ** [replace_ent_assignment] *)

Section stripper.
Implicit Types (s t x y : string) (ps : list piece) (segs : list segment).

Lemma replace_ent_assignment_map texts :
  replace_ent_assignment texts = map strip_text texts.
Proof.
  unfold replace_ent_assignment.
  enough (∀ acc, foldl (λ results t, results ++ [strip_text t]) acc texts
                 = acc ++ map strip_text texts) as H by apply H.
  induction texts as [|t texts IH]; intros acc; simpl.
  - by rewrite app_nil_r.
  - by rewrite IH, <- app_assoc.
Qed.


Lemma plain_elem s c : plain s = true → c ∈ chars s → delimiter c = false.
Proof.
  unfold plain. rewrite forallb_forall. intros H Hc%list_elem_of_In.
  apply H in Hc. by destruct (delimiter c).
Qed.

Lemma plain_app s t : plain (s +:+ t) = (plain s && plain t)%bool.
Proof. unfold plain. by rewrite chars_app, forallb_app. Qed.

Lemma opener_plain k s : plain s = true → opener k ∉ chars s.
Proof. intros Hs Hin. apply (plain_elem _ _ Hs) in Hin. by destruct k. Qed.

Lemma closer_plain k s : plain s = true → closer k ∉ chars s.
Proof. intros Hs Hin. apply (plain_elem _ _ Hs) in Hin. by destruct k. Qed.

Lemma opener_wrap k k' body : k ≠ k' → plain body = true → opener k ∉ chars (wrap k' body).
Proof.
  intros Hk Hb. unfold wrap. simpl. rewrite chars_app. simpl.
  rewrite elem_of_cons, elem_of_app, list_elem_of_singleton.
  intros [Hc|[Hc|Hc]].
  - by destruct k, k'.
  - by apply (opener_plain k) in Hc.
  - by destruct k, k'.
Qed.

Lemma startswith_closed c x b r :
  c ∉ chars x → c ∉ chars b →
  Py.startswith ((b +:+ String c "") +:+ r) (x +:+ String c "") = true → x = b.
Proof.
  revert b. induction x as [|a x IH]; intros b Hx Hb.
  - destruct b as [|a' b]; [done|]. rewrite !str_app_cons, str_app_nil_l.
    intros [<- _]%startswith_cons. destruct Hb. left.
  - apply not_elem_of_cons in Hx as [Hca Hx]. destruct b as [|a' b].
    + rewrite !str_app_cons. intros [<- _]%startswith_cons. done.
    + apply not_elem_of_cons in Hb as [_ Hb]. rewrite !str_app_cons.
      intros [<- H]%startswith_cons. f_equal. by apply IH.
Qed.

(** Replacing the delimited body [wrap k x] puts [new] for every piece
    [Wrapped k x] and leaves the other pieces alone. *)
Lemma replace_wrapped k x new ps :
  Forall (λ p, piece_ok p = true) ps → plain x = true →
  Py.replace (render_pieces ps) (wrap k x) new
  = render_pieces (map (settle k x new) ps).
Proof.
  intros Hok Hx. induction Hok as [|p ps Hp Hok IH]; [done|].
  cbn [map render_pieces]. destruct p as [s|k' b]; cbn [settle render_piece].
  - unfold wrap at 1. rewrite replace_pass by by apply opener_plain.
    by rewrite <- IH.
  - simpl in Hp. case_bool_decide as Heq.
    + destruct Heq as [-> ->]. unfold wrap at 1 2.
      rewrite replace_cons_hit. by rewrite <- IH.
    + destruct (decide (k' = k)) as [->|Hk].
      * assert (b ≠ x) as Hbx by (intros ->; by destruct Heq).
        unfold wrap at 1 2. rewrite str_app_cons, replace_cons_miss; [|done|].
        -- rewrite replace_pass.
           ++ fold (wrap k x). by rewrite IH, <- str_app_cons.
           ++ rewrite chars_app. simpl.
              rewrite elem_of_app, list_elem_of_singleton.
              intros [?%opener_plain|?]; [done..|]. by destruct k.
        -- apply not_true_is_false. intros [_ H]%startswith_cons.
           apply startswith_closed in H; [done|by apply closer_plain..].
      * unfold wrap at 2. rewrite replace_pass by (apply opener_wrap; done).
        by rewrite <- IH.
Qed.

Lemma settle_ok k body new ps :
  plain new = true →
  Forall (λ p, piece_ok p = true) ps →
  Forall (λ p, piece_ok p = true) (map (settle k body new) ps).
Proof.
  intros Hnew Hok. apply Forall_map. eapply Forall_impl; [done|].
  intros [s|k' b] Hp; simpl; [done|]. by case_bool_decide.
Qed.

Lemma strip_pieces_ok ps pr :
  plain pr.1 = true →
  Forall (λ p, piece_ok p = true) ps →
  Forall (λ p, piece_ok p = true) (strip_pieces ps pr).
Proof.
  intros Hx Hok. unfold strip_pieces.
  apply settle_ok; [done|]. by apply settle_ok.
Qed.

Lemma strip_found_pieces ps pr :
  Forall (λ p, piece_ok p = true) ps → plain pr.1 = true → plain pr.2 = true →
  strip_found (render_pieces ps) (named_of pr) = render_pieces (strip_pieces ps pr).
Proof.
  intros Hok Hx Hy. destruct pr as [x y]. simpl in *.
  change (strip_found (render_pieces ps) (named_of (x, y)))
    with (Py.replace (Py.replace (render_pieces ps) (wrap false x) x) (wrap true y) "").
  rewrite replace_wrapped by done.
  rewrite replace_wrapped; [done|by apply settle_ok|done].
Qed.

Lemma foldl_strip_found ps prs :
  Forall (λ p, piece_ok p = true) ps →
  Forall (λ pr, plain pr.1 = true ∧ plain pr.2 = true) prs →
  foldl strip_found (render_pieces ps) (map named_of prs)
  = render_pieces (foldl strip_pieces ps prs).
Proof.
  intros Hok Hprs. revert ps Hok.
  induction Hprs as [|pr prs [Hx Hy] Hprs IH]; intros ps Hok; [done|].
  simpl. rewrite strip_found_pieces by done. apply IH. by apply strip_pieces_ok.
Qed.

Lemma erase_settle_bracket x ps :
  erase_pieces (map (settle false x x) ps) = erase_pieces ps.
Proof.
  induction ps as [|[s|k b] ps IH]; simpl; [done|by rewrite IH|].
  rewrite IH. case_bool_decide as Heq; [|done]. by destruct Heq as [-> ->].
Qed.

Lemma erase_settle_paren y ps :
  erase_pieces (map (settle true y "") ps) = erase_pieces ps.
Proof.
  induction ps as [|[s|k b] ps IH]; simpl; [done|by rewrite IH|].
  rewrite IH. case_bool_decide as Heq; [|done]. by destruct Heq as [-> ->].
Qed.

Lemma erase_foldl_strip ps prs :
  erase_pieces (foldl strip_pieces ps prs) = erase_pieces ps.
Proof.
  revert ps. induction prs as [|pr prs IH]; intros ps; [done|].
  simpl. rewrite IH. unfold strip_pieces.
  by rewrite erase_settle_paren, erase_settle_bracket.
Qed.

Lemma elem_of_settle k body new k' b ps :
  Wrapped k' b ∈ map (settle k body new) ps →
  Wrapped k' b ∈ ps ∧ ¬ (k' = k ∧ b = body).
Proof.
  intros (p & Hp & Hin)%list_elem_of_fmap. destruct p as [s|k0 b0]; [done|].
  simpl in Hp. case_bool_decide as Heq; [done|]. by injection Hp as -> ->.
Qed.

(** A delimited body that outlives the stripper was not among the bodies
    it was given. *)
Lemma elem_of_foldl_strip k b ps prs :
  Wrapped k b ∈ foldl strip_pieces ps prs →
  Wrapped k b ∈ ps ∧ b ∉ (if k then prs.*2 else prs.*1).
Proof.
  revert ps. induction prs as [|pr prs IH]; intros ps; simpl.
  - intros Hin. split; [done|]. destruct k; apply not_elem_of_nil.
  - intros [Hin Hb]%IH. unfold strip_pieces in Hin.
    apply elem_of_settle in Hin as [Hin Hy].
    apply elem_of_settle in Hin as [Hin Hx]. split; [done|].
    destruct k; simpl; apply not_elem_of_cons; split; try done.
    + intros ->. by destruct Hy.
    + intros ->. by destruct Hx.
Qed.

Lemma render_text_only ps :
  (∀ k b, Wrapped k b ∉ ps) → render_pieces ps = erase_pieces ps.
Proof.
  induction ps as [|[s|k b] ps IH]; intros Hno; simpl; [done| |].
  - rewrite IH; [done|]. intros k b Hin. apply (Hno k b). by right.
  - destruct (Hno k b). left.
Qed.

Lemma elem_of_pieces k b segs :
  Wrapped k b ∈ pieces segs → b ∈ (if k then (pairs segs).*2 else (pairs segs).*1).
Proof.
  induction segs as [|[s|x y] segs IH]; simpl.
  - by intros ?%elem_of_nil.
  - intros [?|?]%elem_of_cons; [done|by apply IH].
  - intros [[= -> ->]|[[= -> ->]|Hin]%elem_of_cons]%elem_of_cons.
    + left.
    + left.
    + apply IH in Hin. destruct k; simpl; by right.
Qed.

Lemma render_as_pieces segs : render segs = render_pieces (pieces segs).
Proof.
  induction segs as [|[s|x y] segs IH]; simpl; [done|by rewrite IH|].
  rewrite IH. unfold wrap. simpl opener. simpl closer. by str_norm.
Qed.

Lemma erase_as_stripped segs : erase_pieces (pieces segs) = stripped segs.
Proof.
  induction segs as [|[s|x y] segs IH]; simpl; [done|by rewrite IH|].
  by rewrite IH.
Qed.

Lemma well_formed_cons seg segs :
  well_formed (seg :: segs) = true ↔ wf_segment seg = true ∧ well_formed segs = true.
Proof. unfold well_formed. simpl. apply andb_true_iff. Qed.

Lemma wf_annot x y :
  wf_segment (Annot x y) = true
  ↔ plain x = true ∧ x ≠ "" ∧ plain y = true ∧ y ≠ "".
Proof.
  simpl. rewrite !andb_true_iff. destruct x, y; simpl; intuition congruence.
Qed.

Lemma pieces_ok segs :
  well_formed segs = true → Forall (λ p, piece_ok p = true) (pieces segs).
Proof.
  induction segs as [|[s|x y] segs IH]; [constructor|..];
    intros [Hseg Hsegs]%well_formed_cons; simpl.
  - constructor; [done|by apply IH].
  - apply wf_annot in Hseg as (Hx & _ & Hy & _).
    do 2 (constructor; [done|]). by apply IH.
Qed.

Lemma pairs_ok segs :
  well_formed segs = true →
  Forall (λ pr, plain pr.1 = true ∧ plain pr.2 = true) (pairs segs).
Proof.
  induction segs as [|[s|x y] segs IH]; [constructor|..];
    intros [Hseg Hsegs]%well_formed_cons; simpl.
  - by apply IH.
  - apply wf_annot in Hseg as (Hx & _ & Hy & _). constructor; [done|by apply IH].
Qed.

Lemma plain_stripped segs : well_formed segs = true → plain (stripped segs) = true.
Proof.
  induction segs as [|[s|x y] segs IH]; [done|..];
    intros [Hseg Hsegs]%well_formed_cons; simpl; rewrite plain_app, IH by done.
  - simpl in Hseg. by rewrite Hseg.
  - apply wf_annot in Hseg as (Hx & _). by rewrite Hx.
Qed.

Lemma findall_render segs :
  well_formed segs = true →
  Parse.findall (Parse.compile "[{entity}]({ent_name})") (render segs)
  = map named_of (pairs segs).
Proof.
  rewrite compile_annotation.
  induction segs as [|[s|x y] segs IH]; [done|..];
    intros [Hseg Hsegs]%well_formed_cons; simpl.
  - rewrite <- IH by done.
    rewrite (findall_unfold _ (s +:+ _)), (findall_unfold _ (render segs))
      by apply annot_progressive.
    by rewrite search_pass by by apply (opener_plain false).
  - apply wf_annot in Hseg as (Hx & Hx0 & Hy & Hy0).
    rewrite !str_app_assoc, findall_unfold by apply annot_progressive.
    rewrite (search_hit _ _ ([("entity", x); ("ent_name", y)], render segs)).
    + by rewrite IH.
    + apply match_annot_run; [done..| |].
      * by apply (closer_plain false).
      * by apply (closer_plain true).
Qed.

Lemma strip_text_render segs :
  well_formed segs = true → strip_text (render segs) = stripped segs.
Proof.
  intros Hwf. unfold strip_text. cbv zeta. rewrite findall_render by done.
  rewrite render_as_pieces, foldl_strip_found by auto using pieces_ok, pairs_ok.
  rewrite render_text_only.
  - by rewrite erase_foldl_strip, erase_as_stripped.
  - intros k b [Hin Hb]%elem_of_foldl_strip. by apply elem_of_pieces in Hin.
Qed.

Lemma strip_text_plain t : plain t = true → strip_text t = t.
Proof.
  intros Ht. unfold strip_text. cbv zeta.
  rewrite compile_annotation, findall_unfold by apply annot_progressive.
  by rewrite search_absent by by apply (opener_plain false).
Qed.

End stripper.

(** ** The claims *)

(** C1 (the claim fails on the program).  The claim: the scan of
    [gen_curly_ents] ends on every text.  On the text ["["] it does not:
    the bracket is found, the three other searches return [-1], and the
    text handed to the next round, [text[0 - 1 - 1 - 1:]], is ["["]
    again.  Whatever the number of rounds granted, the loop is still
    running. *)
Theorem gen_curly_ents_lone_bracket_diverges :
  gen_curly_step "[" = Some (("", ""), "[")
  ∧ ∀ fuel, gen_curly_ents fuel "[" = None.
Proof.
  assert (gen_curly_step "[" = Some (("", ""), "[")) as Hstep
    by (vm_compute; reflexivity).
  split; [done|]. by apply (gen_curly_ents_stuck _ _ Hstep).
Qed.

(** C2 (the claim fails on the program).  The claim: names are collected
    from full annotations [[<entity>](<ent_name>)] only, so a text with a
    bare [(foo)] gives the empty list.  The program compiles the format
    ["({entity})"], without the bracket part that the docstring (entities
    of Rasa style strings) and the format of [replace_ent_assignment]
    call for: the text ["(foo)"] holds no annotation, the scanner of
    [replace_ent_assignment] finds nothing in it, and [entity_names]
    still reports [foo]. *)
Lemma entity_names_bare_paren :
  (∀ t, t ∈ ["(foo)"] → ¬ has_annotation t)
  ∧ Parse.findall (Parse.compile "[{entity}]({ent_name})") "(foo)" = []
  ∧ entity_names ["(foo)"] = ["foo"]
  ∧ entity_names ["(foo)"] ≠ [].
Proof.
  split; [|split; [by vm_compute|split; by vm_compute]].
  intros t ->%list_elem_of_singleton. apply search_annot_none.
  vm_compute. reflexivity.
Qed.

(** X13.  [entity_names] returns the empty list exactly when no text holds
    an opening parenthesis followed, after at least one character, by a
    closing one. *)
Theorem entity_names_nil_iff_no_paren_run (texts : list string) :
  entity_names texts = [] ↔ ∀ t, t ∈ texts → ¬ has_paren_run t.
Proof. apply entity_names_nil. Qed.

Lemma entity_names_nil_iff_no_paren_run_witness :
  ¬ has_paren_run "what is [python] good for ()".
Proof.
  apply (proj1 (entity_names_nil_iff_no_paren_run ["what is [python] good for ()"])).
  - vm_compute. reflexivity.
  - left.
Defined.

(** C3, as stated, fails: on ["[x]{a}"] the next round starts from ["}"],
    not from [text[sq1+sq2+br1:]], which is ["{a}"]. *)
Lemma gen_curly_step_continues_at_closing_brace :
  let text := "[x]{a}" in
  let sq1 := Py.find text "[" in
  let sq2 := Py.find (Py.slice_from text sq1) "]" in
  let br1 := Py.find (Py.slice_from text (sq1 + sq2)) "{" in
  gen_curly_step text = Some (("[x]", "{a}"), "}")
  ∧ Py.slice_from text (sq1 + sq2 + br1) = "{a}"
  ∧ "}" ≠ "{a}".
Proof. vm_compute. by repeat split. Qed.

(** C3, amended: after yielding the pair the scan continues from
    [text[sq1+sq2+br1+br2:]]; when the four delimiters are found, this
    drops exactly the [sq1+sq2+br1+br2] characters before the closing
    brace, so the next round starts at that brace. *)
Theorem gen_curly_step_continuation (text ent curly rest : string) :
  gen_curly_step text = Some ((ent, curly), rest) →
  let sq1 := Py.find text "[" in
  let sq2 := Py.find (Py.slice_from text sq1) "]" in
  let br1 := Py.find (Py.slice_from text (sq1 + sq2)) "{" in
  let br2 := Py.find (Py.slice_from text (sq1 + sq2 + br1)) "}" in
  rest = Py.slice_from text (sq1 + sq2 + br1 + br2)
  ∧ (sq2 ≠ (-1)%Z → br1 ≠ (-1)%Z → br2 ≠ (-1)%Z →
     ∃ dropped,
       text = dropped +:+ rest
       ∧ Py.len dropped = (sq1 + sq2 + br1 + br2)%Z
       ∧ Py.startswith rest "}" = true).
Proof.
  unfold gen_curly_step. case_bool_decide as H1; [|done].
  intros [= <- <- <-]. cbv zeta. split; [done|].
  destruct (find_found _ _ H1) as (i1 & -> & _).
  rewrite slice_from_nat. intros H2.
  destruct (find_found _ _ H2) as (i2 & -> & _).
  rewrite <- Nat2Z.inj_add, slice_from_nat. intros H3.
  destruct (find_found _ _ H3) as (i3 & -> & _).
  rewrite <- Nat2Z.inj_add, slice_from_nat. intros H4.
  destruct (find_found _ _ H4) as (i4 & -> & Hbrace).
  rewrite <- Nat2Z.inj_add, slice_from_nat.
  rewrite drop_drop in Hbrace. set (n := i1 + i2 + i3 + i4) in *.
  exists (Py.take n text). split; [by rewrite take_drop|]. split; [|done].
  unfold Py.len. rewrite length_take. f_equal.
  destruct (decide (n ≤ String.length text)) as [?|Hgt]; [lia|].
  by rewrite drop_all in Hbrace by lia.
Qed.

Lemma gen_curly_step_continuation_witness :
  "}" = Py.slice_from "[x]{a}" 5
  ∧ ∃ dropped,
      "[x]{a}" = dropped +:+ "}" ∧ Py.len dropped = 5%Z
      ∧ Py.startswith "}" "}" = true.
Proof.
  pose proof (gen_curly_step_continuation "[x]{a}" "[x]" "{a}" "}") as H.
  destruct H as [H1 H2]; [by vm_compute|]. split; [exact H1|].
  apply H2; by vm_compute.
Defined.

(** C4, as stated, fails: stripping ["[[a]](b)(c)"] gives ["[a](c)"], and
    stripping that gives ["a"]. *)
Lemma strip_not_idempotent :
  replace_ent_assignment ["[[a]](b)(c)"] = ["[a](c)"]
  ∧ replace_ent_assignment (replace_ent_assignment ["[[a]](b)(c)"]) = ["a"]
  ∧ replace_ent_assignment (replace_ent_assignment ["[[a]](b)(c)"])
    ≠ replace_ent_assignment ["[[a]](b)(c)"].
Proof. by vm_compute. Qed.

(** C4, amended: the stripper is idempotent on texts made of plain
    stretches and annotations [[x](y)] in which neither the plain
    stretches nor [x] nor [y] hold a bracket or a parenthesis, and [x]
    and [y] are not empty. *)
Theorem strip_idempotent_well_formed (segss : list (list segment)) :
  forallb well_formed segss = true →
  replace_ent_assignment (replace_ent_assignment (map render segss))
  = replace_ent_assignment (map render segss).
Proof.
  intros Hwf. rewrite !replace_ent_assignment_map, !map_map.
  apply map_ext_in. intros segs Hin.
  rewrite forallb_forall in Hwf. specialize (Hwf _ Hin).
  rewrite strip_text_render by done.
  by apply strip_text_plain, plain_stripped.
Qed.

Lemma strip_idempotent_well_formed_witness :
  replace_ent_assignment
    (replace_ent_assignment ["[python](proglang) and [pandas](package)"; "hello"])
  = replace_ent_assignment ["[python](proglang) and [pandas](package)"; "hello"].
Proof.
  apply (strip_idempotent_well_formed
           [[Annot "python" "proglang"; Plain " and "; Annot "pandas" "package"];
            [Plain "hello"]]).
  reflexivity.
Defined.

(** C6, as stated, fails: ["[x](y)[(y)x](z)"] is two annotations side by
    side, entities free of []] and names free of [)]; the scanner finds
    both, and the output still holds ["[x]"] for the matched entity [x]. *)
Lemma strip_leaves_bracketed_entity :
  let text := "[x](y)[(y)x](z)" in
  text = ("[" +:+ "x" +:+ "](" +:+ "y" +:+ ")") +:+ ("[" +:+ "(y)x" +:+ "](" +:+ "z" +:+ ")")
  ∧ Parse.findall (Parse.compile "[{entity}]({ent_name})") text
    = [named_of ("x", "y"); named_of ("(y)x", "z")]
  ∧ replace_ent_assignment [text] = ["x[x]"]
  ∧ Py.contains "x[x]" ("[" +:+ "x" +:+ "]") = true.
Proof. by vm_compute. Qed.

(** C6, amended: on a text made of plain stretches and annotations
    [[x](y)], where neither the plain stretches nor any [x] or [y] hold a
    bracket or a parenthesis and no [x] or [y] is empty, the scanner
    reports the annotations, and the output of the stripper holds no
    ["[x]"] and no ["(y)"] of a reported annotation; and
    [replace_ent_assignment(["[python](proglang) and [pandas](package)"])]
    is [["python and pandas"]]. *)
Theorem strip_well_formed_clean :
  (∀ segs,
     well_formed segs = true →
     Parse.findall (Parse.compile "[{entity}]({ent_name})") (render segs)
     = map named_of (pairs segs)
     ∧ ∃ out,
         replace_ent_assignment [render segs] = [out]
         ∧ ∀ x y, (x, y) ∈ pairs segs →
                  Py.contains out ("[" +:+ x +:+ "]") = false
                  ∧ Py.contains out ("(" +:+ y +:+ ")") = false)
  ∧ replace_ent_assignment ["[python](proglang) and [pandas](package)"]
    = ["python and pandas"].
Proof.
  split; [|by vm_compute]. intros segs Hwf.
  split; [by apply findall_render|]. exists (stripped segs). split.
  - rewrite replace_ent_assignment_map. simpl. by rewrite strip_text_render.
  - intros x y _. pose proof (plain_stripped _ Hwf) as Hplain. split.
    + apply (contains_absent _ "["%char). by apply (opener_plain false).
    + apply (contains_absent _ "("%char). by apply (opener_plain true).
Qed.

Lemma strip_well_formed_clean_witness :
  ∃ out,
    replace_ent_assignment ["[a](e1) and [b](e1)"] = [out]
    ∧ ∀ x y, (x, y) ∈ [("a", "e1"); ("b", "e1")] →
             Py.contains out ("[" +:+ x +:+ "]") = false
             ∧ Py.contains out ("(" +:+ y +:+ ")") = false.
Proof.
  apply (proj1 strip_well_formed_clean
           [Annot "a" "e1"; Plain " and "; Annot "b" "e1"]).
  reflexivity.
Defined.





(** C9: empty inputs give empty results, and so does a text without
    annotations given to [entity_names]. *)
Theorem empty_inputs_yield_empty_results :
  entity_names [] = []
  ∧ (∀ fuel, curly_entity_items fuel [] = Some [])
  ∧ replace_ent_assignment [] = []
  ∧ entity_names ["no annotations here"] = [].
Proof.
  split; [done|]. split; [|split; [done|by vm_compute]].
  intros fuel. by vm_compute.
Qed.

(** C10: every string returned by [curly_entity_items] is non-empty and
    free of braces, colons, commas and spaces, and none is returned
    twice. *)
Theorem curly_entity_items_invariant (fuel : nat) (texts res : list string) :
  curly_entity_items fuel texts = Some res →
  NoDup res
  ∧ ∀ item, item ∈ res →
            item ≠ ""
            ∧ Py.contains item "{" = false
            ∧ Py.contains item "}" = false
            ∧ Py.contains item ":" = false
            ∧ Py.contains item "," = false
            ∧ Py.contains item " " = false.
Proof.
  intros Hres. split; [by eapply NoDup_curly_entity_items|].
  intros item Hitem.
  apply (elem_of_curly_entity_items _ _ _ Hres) in Hitem
    as (text & spans & span & _ & _ & _ & Hclean & Hne).
  split; [done|]. rewrite !contains_char.
  repeat split; intros Hc; apply (cleaned_chars _ _ _ Hclean) in Hc; tauto.
Qed.

Lemma curly_entity_items_invariant_witness :
  NoDup ["city"; "entity"; "role"; "to"]
  ∧ ∀ item, item ∈ ["city"; "entity"; "role"; "to"] →
            item ≠ ""
            ∧ Py.contains item "{" = false
            ∧ Py.contains item "}" = false
            ∧ Py.contains item ":" = false
            ∧ Py.contains item "," = false
            ∧ Py.contains item " " = false.
Proof.
  apply (curly_entity_items_invariant 3 ["fly to [Paris]{entity: city, role: to}"]).
  vm_compute. reflexivity.
Defined.

(** ** Further properties of the program *)

(** *** What [entity_names] reports *)

Section names.
Import Parse.
Implicit Types (p : parser) (s t u v x y : string) (fs d : named).

Local Abbreviation paren_expr := [Lit "("; Field "entity"; Lit ")"].

(** A lazy field stops at the first place where the rest of the
    expression matches: it matches nowhere inside the text taken. *)
Lemma lazy_field_first k n taken s fs rest :
  lazy_field k n taken s = Some (fs, rest) →
  ∃ a v fs' u,
    fs = (n, taken +:+ String a v) :: fs' ∧ s = String a (v +:+ u)
    ∧ k u = Some (fs', rest)
    ∧ ∀ v1 v2, v = v1 +:+ v2 → v2 ≠ "" → k (v2 +:+ u) = None.
Proof.
  revert taken. induction s as [|a s IH]; intros taken H; [done|].
  cbn [lazy_field] in H. destruct (k s) as [[fs' rest']|] eqn:Hk.
  - injection H as <- <-. exists a, "", fs', s. repeat split; [done|].
    intros v1 v2 Hv Hv2. by destruct v1, v2.
  - apply IH in H as (a' & v & fs' & u & -> & -> & Hu & Hmin).
    exists a, (String a' v), fs', u. rewrite str_app_assoc.
    repeat split; [done|]. intros [|b v1] v2 Hv Hv2.
    + rewrite str_app_nil_l in Hv. by subst v2.
    + rewrite str_app_cons in Hv. injection Hv as <- ->. by apply (Hmin v1).
Qed.

Lemma match_paren_first s fs rest :
  match_here paren_expr s = Some (fs, rest) →
  ∃ a v, fs = [("entity", String a v)] ∧ (")"%char ∉ chars v)
         ∧ s = "(" +:+ String a v +:+ ")" +:+ rest.
Proof.
  intros (u & -> & H)%match_lit_inv. cbn [match_here] in H.
  apply lazy_field_first in H as (a & v & fs' & u' & -> & -> & Hu & Hmin).
  destruct (Py.startswith u' ")") eqn:Hs; [|done].
  injection Hu as <- <-. exists a, v. split; [done|]. split.
  - intros Hin. apply list_elem_of_In, in_split in Hin as (l1 & l2 & Hv).
    assert (v = string_of_list_ascii l1 +:+ String ")" (string_of_list_ascii l2))
      as Hv'.
    { rewrite <- (string_of_list_ascii_of_string v). unfold chars in Hv.
      rewrite Hv. clear. induction l1 as [|c l1 IH]; [done|].
      simpl. by rewrite IH. }
    specialize (Hmin _ _ Hv' ltac:(done)).
    rewrite str_app_cons in Hmin. cbn [match_here] in Hmin.
    rewrite (proj2 (startswith_cons _ _ _ _)) in Hmin; [done|].
    split; [done|apply startswith_nil].
  - rewrite str_app_cons. f_equal. rewrite (startswith_inv _ _ Hs) at 1.
    by str_norm.
Qed.

Lemma match_here_suffix p u fs rest :
  match_here p u = Some (fs, rest) → ∃ m, u = m +:+ rest.
Proof.
  revert u fs. induction p as [|[l|n] p IH]; intros u fs.
  - intros [= <- <-]. by exists "".
  - intros (u' & -> & (m & ->)%IH)%match_lit_inv.
    exists (l +:+ m). by rewrite str_app_assoc.
  - intros (v & fs' & u' & _ & _ & -> & (m & ->)%IH)%match_field_inv.
    exists (v +:+ m). by rewrite str_app_assoc.
Qed.

(** Every match of [findall] is a match of the expression at some place
    of the text. *)
Lemma elem_of_findall_loop n p t d :
  d ∈ findall_loop n p t →
  ∃ pre u rest, t = pre +:+ u ∧ match_here p u = Some (d, rest).
Proof.
  revert t. induction n as [|n IH]; intros t; simpl; [by intros ?%elem_of_nil|].
  destruct (search p t) as [[fs rest]|] eqn:Hs; [|by intros ?%elem_of_nil].
  apply search_sound in Hs as (pre & u & -> & Hu).
  intros [->|Hin]%elem_of_cons; [by exists pre, u, rest|].
  apply IH in Hin as (pre' & u' & rest' & -> & Hu').
  apply match_here_suffix in Hu as (m & ->).
  exists (pre +:+ m +:+ pre'), u', rest'. by rewrite !str_app_assoc.
Qed.

Lemma elem_of_concat {A} (x : A) (ls : list (list A)) :
  x ∈ concat ls ↔ ∃ l, x ∈ l ∧ l ∈ ls.
Proof.
  induction ls as [|l ls IH]; simpl.
  - split; [by intros ?%elem_of_nil|]. by intros (l & _ & ?%elem_of_nil).
  - rewrite elem_of_app, IH. split.
    + intros [?|(l' & ? & ?)]; [exists l; split; [done|left]|].
      exists l'. split; [done|by right].
    + intros (l' & ? & [->|?]%elem_of_cons); [by left|]. right. by exists l'.
Qed.

Lemma entity_names_unique texts : entity_names texts = unique (all_names texts).
Proof.
  unfold entity_names, all_names. cbv zeta. case_bool_decide as Hlen; [|done].
  apply length_zero_iff_nil in Hlen. by rewrite Hlen.
Qed.

Lemma unique_app (l1 l2 : list string) :
  unique (l1 ++ l2) = unique l1 ++ filter (λ y, y ∉ l1) (unique l2).
Proof.
  induction l1 as [|x l1 IH]; simpl.
  - induction (unique l2) as [|y l IH]; [done|].
    rewrite filter_cons_True by apply not_elem_of_nil. by rewrite <- IH.
  - f_equal. rewrite IH, filter_app. f_equal.
    rewrite list_filter_filter. apply list_filter_iff. intros y.
    rewrite not_elem_of_cons. tauto.
Qed.

Lemma match_paren_run y rest :
  y ≠ "" → ")"%char ∉ chars y →
  match_here paren_expr ("(" +:+ y +:+ ")" +:+ rest) = Some ([("entity", y)], rest).
Proof.
  intros Hy Hc. rewrite match_lit.
  apply (match_field_run ")"); [done..|]. by rewrite match_lit.
Qed.

Lemma findall_paren_render segs :
  well_formed segs = true →
  findall (compile "({entity})") (render segs)
  = map (λ pr, [("entity", pr.2)]) (pairs segs).
Proof.
  rewrite compile_paren.
  induction segs as [|[s|x y] segs IH]; [done|..];
    intros [Hseg Hsegs]%well_formed_cons; simpl.
  - rewrite <- IH by done.
    rewrite (findall_unfold _ (s +:+ _)), (findall_unfold _ (render segs))
      by apply paren_progressive.
    by rewrite search_pass by by apply (opener_plain true).
  - apply wf_annot in Hseg as (Hx & Hx0 & Hy & Hy0).
    replace (("[" +:+ x +:+ "](" +:+ y +:+ ")") +:+ render segs)
      with (wrap false x +:+ "(" +:+ y +:+ ")" +:+ render segs)
      by (unfold wrap; simpl opener; simpl closer; by str_norm).
    rewrite findall_unfold by apply paren_progressive.
    rewrite search_pass by (apply (opener_wrap true false); done).
    rewrite (search_hit _ _ ([("entity", y)], render segs)).
    + by rewrite IH.
    + apply match_paren_run; [done|]. by apply (closer_plain true).
Qed.

Lemma all_names_render segss :
  forallb well_formed segss = true →
  all_names (map render segss) = concat (map (λ segs, (pairs segs).*2) segss).
Proof.
  unfold all_names. induction segss as [|segs segss IH]; [done|].
  simpl. intros [Hsegs Hrest]%andb_true_iff.
  rewrite map_app, IH by done. f_equal.
  rewrite findall_paren_render by done. rewrite map_map. done.
Qed.

Lemma all_names_app texts1 texts2 :
  all_names (texts1 ++ texts2) = all_names texts1 ++ all_names texts2.
Proof. unfold all_names. by rewrite map_app, concat_app, map_app. Qed.

End names.

(** C5: over the whole corpus the names come out without duplicates and
    in first-seen order.  With [all_names texts] the names of all matches
    in scan order, text after text: the result has no duplicates and the
    same names; and a name stands in the result after exactly those names
    that were seen before its first appearance.  The two examples evaluate
    as stated. *)
Theorem entity_names_first_seen :
  (∀ texts, NoDup (entity_names texts))
  ∧ (∀ texts name, name ∈ entity_names texts ↔ name ∈ all_names texts)
  ∧ (∀ texts seen name later,
       all_names texts = seen ++ name :: later → name ∉ seen →
       ∃ before after,
         entity_names texts = before ++ name :: after
         ∧ ∀ other, other ∈ before ↔ other ∈ seen)
  ∧ entity_names ["[python](proglang) and [pandas](package)"] = ["proglang"; "package"]
  ∧ entity_names ["[a](e1) and [b](e1)"] = ["e1"].
Proof.
  split; [|split; [|split; [|by vm_compute]]].
  - intros texts. rewrite entity_names_unique. apply NoDup_unique.
  - intros texts name. by rewrite entity_names_unique, elem_of_unique.
  - intros texts seen name later Hall Hfresh.
    rewrite entity_names_unique, Hall, unique_app. simpl.
    rewrite filter_cons_True by done.
    eexists (unique seen), _. split; [done|].
    intros other. apply elem_of_unique.
Qed.

Lemma entity_names_first_seen_witness :
  ∃ before after,
    entity_names ["[a](e1) and [b](e2)"; "[c](e1) or [d](e3)"]
    = before ++ "e2" :: after
    ∧ ∀ other, other ∈ before ↔ other ∈ ["e1"].
Proof.
  apply (proj1 (proj2 (proj2 entity_names_first_seen))
           ["[a](e1) and [b](e2)"; "[c](e1) or [d](e3)"] ["e1"] "e2" ["e1"; "e3"]).
  - vm_compute. reflexivity.
  - apply not_elem_of_cons. split; [done|apply not_elem_of_nil].
Defined.

(** X1.  Every name [entity_names] returns stands in some text between an
    opening and a closing parenthesis; it is not empty, and after its
    first character it holds no closing parenthesis (the first character
    can be one). *)
Theorem entity_names_sound (texts : list string) (name : string) :
  name ∈ entity_names texts →
  ∃ t pre post a v,
    t ∈ texts ∧ name = String a v ∧ (")"%char ∉ chars v)
    ∧ t = pre +:+ "(" +:+ name +:+ ")" +:+ post.
Proof.
  rewrite entity_names_unique, elem_of_unique. unfold all_names.
  intros (d & Hname & Hd)%list_elem_of_fmap.
  apply elem_of_concat in Hd as (ds & Hd & Hds).
  apply list_elem_of_fmap in Hds as (t & -> & Ht).
  rewrite compile_paren in Hd. apply elem_of_findall_loop in Hd as (pre & u & rest & -> & Hu).
  apply match_paren_first in Hu as (a & v & -> & Hv & ->).
  simpl in Hname. subst name.
  by exists (pre +:+ "(" +:+ String a v +:+ ")" +:+ rest), pre, rest, a, v.
Qed.

Lemma entity_names_sound_witness :
  ∃ t pre post a v,
    t ∈ ["call ())"] ∧ ")" = String a v ∧ (")"%char ∉ chars v)
    ∧ t = pre +:+ "(" +:+ ")" +:+ ")" +:+ post.
Proof.
  apply (entity_names_sound ["call ())"] ")").
  replace (entity_names ["call ())"]) with [")"] by (by vm_compute). left.
Defined.

(** X2.  On texts made of plain stretches and annotations [[x](y)] whose
    parts hold no bracket and no parenthesis, [entity_names] returns the
    names [y] of the annotations, in the order of the texts, each at its
    first appearance. *)
Theorem entity_names_well_formed (segss : list (list segment)) :
  forallb well_formed segss = true →
  entity_names (map render segss)
  = unique (concat (map (λ segs, (pairs segs).*2) segss)).
Proof.
  intros Hwf. by rewrite entity_names_unique, all_names_render.
Qed.

Lemma entity_names_well_formed_witness :
  entity_names ["[a](e1) and [b](e2)"; "[c](e1)"] = ["e1"; "e2"].
Proof.
  apply (entity_names_well_formed
           [[Annot "a" "e1"; Plain " and "; Annot "b" "e2"]; [Annot "c" "e1"]]).
  reflexivity.
Defined.

(** X3.  Adding texts at the end of a corpus keeps the names found so far
    in place and appends the names not seen before. *)
Theorem entity_names_app (texts1 texts2 : list string) :
  entity_names (texts1 ++ texts2)
  = entity_names texts1
    ++ filter (λ name, name ∉ entity_names texts1) (entity_names texts2).
Proof.
  rewrite !entity_names_unique, all_names_app, unique_app. f_equal.
  apply list_filter_iff. intros name. by rewrite elem_of_unique.
Qed.

(** *** What the stripper does to a text *)

Section deletions.
Implicit Types (s t old new : string).

Lemma length_chars s : length (chars s) = String.length s.
Proof. induction s as [|a s IH]; [done|]. simpl. by rewrite IH. Qed.

(** Replacing [old] by a subsequence of [old] only deletes characters. *)
Lemma replace_sublist s b old new :
  chars new `sublist_of` chars (String b old) →
  chars (Py.replace s (String b old) new) `sublist_of` chars s.
Proof.
  intros Hnew. remember (String.length s) as n eqn:Hn.
  revert s Hn. induction (lt_wf n) as [n _ IH]. intros s ->.
  destruct s as [|a s]; [done|].
  destruct (Py.startswith (String a s) (String b old)) eqn:Hs.
  - rewrite (startswith_inv _ _ Hs), replace_cons_hit, !chars_app.
    apply sublist_app; [done|]. eapply IH; [|done].
    rewrite length_drop. simpl. lia.
  - rewrite replace_cons_miss by done. simpl. apply sublist_skip.
    eapply IH; [|done]. simpl. lia.
Qed.

Lemma strip_found_sublist t found :
  chars (strip_found t found) `sublist_of` chars t.
Proof.
  unfold strip_found. cbv zeta.
  set (e := Parse.getitem found "entity"). set (n := Parse.getitem found "ent_name").
  etrans.
  - apply (replace_sublist _ "(" (n +:+ ")") ""). apply sublist_nil_l.
  - apply (replace_sublist _ "[" (e +:+ "]") e). simpl. rewrite chars_app.
    apply sublist_cons, sublist_inserts_r. done.
Qed.

Lemma strip_text_sublist t : chars (strip_text t) `sublist_of` chars t.
Proof.
  unfold strip_text. cbv zeta.
  generalize (Parse.findall (Parse.compile "[{entity}]({ent_name})") t).
  intros founds. revert t. induction founds as [|found founds IH]; intros t; [done|].
  simpl. etrans; [apply IH|apply strip_found_sublist].
Qed.

End deletions.

(** X4.  The stripper only deletes characters: every output text is a
    subsequence of the input text at the same position, and so is never
    longer. *)
Theorem replace_ent_assignment_only_deletes (texts : list string) (i : nat)
    (t : string) :
  texts !! i = Some t →
  ∃ out,
    replace_ent_assignment texts !! i = Some out
    ∧ chars out `sublist_of` chars t
    ∧ String.length out ≤ String.length t.
Proof.
  intros Hi. exists (strip_text t).
  rewrite replace_ent_assignment_map, list_lookup_fmap, Hi.
  split; [done|]. pose proof (strip_text_sublist t) as Hsub.
  split; [done|]. apply sublist_length in Hsub. by rewrite !length_chars in Hsub.
Qed.

Lemma replace_ent_assignment_only_deletes_witness :
  ∃ out,
    replace_ent_assignment ["[[a]](b)(c)"] !! 0 = Some out
    ∧ chars out `sublist_of` chars "[[a]](b)(c)"
    ∧ String.length out ≤ String.length "[[a]](b)(c)".
Proof.
  apply (replace_ent_assignment_only_deletes ["[[a]](b)(c)"] 0). reflexivity.
Defined.

(** X5.  On texts made of plain stretches and annotations [[x](y)] whose
    parts hold no bracket and no parenthesis, the stripper returns each
    text with every annotation reduced to its entity text [x]; no bracket,
    parenthesis or annotation is left. *)
Theorem replace_ent_assignment_well_formed (segss : list (list segment)) :
  forallb well_formed segss = true →
  replace_ent_assignment (map render segss) = map stripped segss
  ∧ ∀ out, out ∈ replace_ent_assignment (map render segss) →
           plain out = true ∧ ¬ has_annotation out.
Proof.
  intros Hwf. rewrite forallb_forall in Hwf.
  assert (replace_ent_assignment (map render segss) = map stripped segss) as ->.
  { rewrite replace_ent_assignment_map, map_map. apply map_ext_in.
    intros segs Hin. by apply strip_text_render, Hwf. }
  split; [done|]. intros out (segs & -> & Hin%list_elem_of_In)%list_elem_of_fmap.
  pose proof (plain_stripped _ (Hwf _ Hin)) as Hplain. split; [done|].
  apply search_annot_none, search_absent. by apply (opener_plain false).
Qed.

Lemma replace_ent_assignment_well_formed_witness :
  replace_ent_assignment ["book a [flight](service) to [Rome](city)"; "thanks"]
  = ["book a flight to Rome"; "thanks"]
  ∧ ∀ out,
      out ∈ replace_ent_assignment
              ["book a [flight](service) to [Rome](city)"; "thanks"] →
      plain out = true ∧ ¬ has_annotation out.
Proof.
  apply (replace_ent_assignment_well_formed
           [[Plain "book a "; Annot "flight" "service"; Plain " to ";
             Annot "Rome" "city"]; [Plain "thanks"]]).
  reflexivity.
Defined.

(** *** Rounds of the curly scanner *)

Section rounds.
Implicit Types (s t p x mid body pre post : string) (c : ascii) (n i : nat).

Lemma lacks_spec c s : lacks c s = true ↔ c ∉ chars s.
Proof.
  unfold lacks. rewrite forallb_forall. split.
  - intros H Hin%list_elem_of_In. apply H in Hin.
    by rewrite Ascii.eqb_refl in Hin.
  - intros Hc d Hd%list_elem_of_In.
    destruct (Ascii.eqb_spec d c) as [->|]; done.
Qed.

Lemma index_of_char_app p c s :
  c ∉ chars p → Py.index_of (p +:+ String c s) (String c "") = Some (String.length p).
Proof.
  induction p as [|a p IH]; intros Hc.
  - rewrite str_app_nil_l. cbn [Py.index_of].
    by rewrite (proj2 (startswith_cons _ _ _ _)) by (split; [done|apply startswith_nil]).
  - apply not_elem_of_cons in Hc as [Hne Hc]. rewrite str_app_cons.
    cbn [Py.index_of]. rewrite startswith_head by done. by rewrite IH.
Qed.

Lemma find_char_app p c s :
  c ∉ chars p → Py.find (p +:+ String c s) (String c "") = Z.of_nat (String.length p).
Proof. intros Hc. unfold Py.find. by rewrite index_of_char_app. Qed.

Lemma find_char_absent s c : c ∉ chars s → Py.find s (String c "") = (-1)%Z.
Proof. intros Hc. unfold Py.find. by rewrite index_of_char_absent. Qed.

Lemma take_app p s : Py.take (String.length p) (p +:+ s) = p.
Proof. induction p as [|a p IH]; [by destruct s|]. rewrite str_app_cons. simpl. by rewrite IH. Qed.

Lemma take_all n s : String.length s ≤ n → Py.take n s = s.
Proof.
  revert s. induction n as [|n IH]; intros [|a s] Hn; simpl in *; try done; [lia|].
  rewrite IH; [done|lia].
Qed.

Lemma slice_nat s (a b : nat) :
  Py.slice s (Z.of_nat a) (Z.of_nat b) = Py.take (b - a) (Py.drop a s).
Proof.
  unfold Py.slice, Py.clip, Py.len. cbv zeta.
  destruct (Z.ltb_spec (Z.of_nat a) 0) as [?|_]; [lia|].
  destruct (Z.ltb_spec (Z.of_nat b) 0) as [?|_]; [lia|].
  destruct (decide (a ≤ String.length s)) as [Ha|Ha].
  - rewrite (Z.min_l (Z.of_nat a)), Nat2Z.id by lia.
    destruct (decide (b ≤ String.length s)) as [Hb|Hb].
    + rewrite Z.min_l by lia. f_equal. lia.
    + rewrite Z.min_r by lia.
      rewrite !take_all; [done|rewrite length_drop; lia..].
  - rewrite (Z.min_r (Z.of_nat a)), Nat2Z.id by lia.
    by rewrite !drop_all, !(take_all _ "") by (simpl; lia).
Qed.

(** Searching from position [n], where the text goes on with a stretch
    [p] free of [c] and then [c]. *)
Lemma find_from t n p c s :
  Py.drop n t = p +:+ String c s → c ∉ chars p →
  Py.find (Py.slice_from t (Z.of_nat n)) (String c "") = Z.of_nat (String.length p)
  ∧ Py.drop (n + String.length p) t = String c s.
Proof.
  intros Hdrop Hc. rewrite slice_from_nat, Hdrop. split; [by apply find_char_app|].
  by rewrite <- drop_drop, Hdrop, drop_app.
Qed.

(** One round on a text whose first bracket opens an annotation. *)
Lemma gen_curly_step_annot pre x mid body post :
  "["%char ∉ chars pre → "]"%char ∉ chars x → "{"%char ∉ chars mid →
  "}"%char ∉ chars body →
  gen_curly_step
    (pre +:+ "[" +:+ x +:+ "]" +:+ mid +:+ "{" +:+ body +:+ "}" +:+ post)
  = Some (("[" +:+ x +:+ "]", "{" +:+ body +:+ "}"), "}" +:+ post).
Proof.
  intros Hpre Hx Hmid Hbody.
  change (pre +:+ "[" +:+ x +:+ "]" +:+ mid +:+ "{" +:+ body +:+ "}" +:+ post)
    with (pre +:+ String "[" (x +:+ String "]" (mid +:+ String "{"
            (body +:+ String "}" post)))).
  set (t := pre +:+ _).
  assert (Py.find t "[" = Z.of_nat (String.length pre)) as E1
    by by apply find_char_app.
  assert (Py.drop (String.length pre) t
          = String "[" x +:+ String "]" (mid +:+ String "{" (body +:+ String "}" post)))
    as D1 by apply drop_app.
  destruct (find_from t _ _ _ _ D1) as [E2 D2].
  { apply not_elem_of_cons. by split. }
  change (Py.drop (String.length pre + String.length (String "[" x)) t
          = String "]" mid +:+ String "{" (body +:+ String "}" post)) in D2.
  destruct (find_from t _ _ _ _ D2) as [E3 D3].
  { apply not_elem_of_cons. by split. }
  change (Py.drop (String.length pre + String.length (String "[" x)
                   + String.length (String "]" mid)) t
          = String "{" body +:+ String "}" post) in D3.
  destruct (find_from t _ _ _ _ D3) as [E4 D4].
  { apply not_elem_of_cons. by split. }
  unfold gen_curly_step. cbv zeta.
  rewrite E1, E2, <- !Nat2Z.inj_add, E3, <- !Nat2Z.inj_add, E4, <- !Nat2Z.inj_add.
  rewrite bool_decide_eq_true_2 by lia.
  change 1%Z with (Z.of_nat 1). rewrite <- !Nat2Z.inj_add.
  rewrite !slice_nat, slice_from_nat, D4. f_equal. f_equal. f_equal.
  - rewrite D1.
    replace (_ - _) with (String.length (String "[" (x +:+ "]")))
      by (simpl; rewrite str_length_app; simpl; lia).
    replace (String "[" x +:+ String "]" (mid +:+ String "{" (body +:+ String "}" post)))
      with (String "[" (x +:+ "]") +:+ mid +:+ String "{" (body +:+ String "}" post))
      by by str_norm.
    by rewrite take_app.
  - rewrite D3.
    replace (_ - _) with (String.length (String "{" (body +:+ "}")))
      by (simpl; rewrite str_length_app; simpl; lia).
    replace (String "{" body +:+ String "}" post)
      with (String "{" (body +:+ "}") +:+ post) by by str_norm.
    by rewrite take_app.
Qed.

End rounds.

(** *** Whole scans *)

Section scans.
Implicit Types (s t p x mid body pre post : string) (c : ascii) (n i : nat).

Lemma gen_curly_step_none t : "["%char ∉ chars t → gen_curly_step t = None.
Proof.
  intros Hc. unfold gen_curly_step. rewrite find_char_absent by done.
  by rewrite bool_decide_eq_false_2 by (intros H; by apply H).
Qed.

Lemma cwf_cons seg segs :
  curly_well_formed (seg :: segs) = true
  ↔ cwf_segment seg = true ∧ curly_well_formed segs = true.
Proof. unfold curly_well_formed. simpl. apply andb_true_iff. Qed.

Lemma gen_curly_ents_render pre segs fuel :
  "["%char ∉ chars pre → curly_well_formed segs = true →
  length (curly_spans segs) ≤ fuel →
  gen_curly_ents fuel (pre +:+ render_curly segs) = Some (curly_spans segs).
Proof.
  revert pre fuel. induction segs as [|[s|x mid body] segs IH];
    intros pre fuel Hpre Hwf Hfuel.
  - simpl. rewrite gen_curly_ents_unfold, gen_curly_step_none; [done|].
    by rewrite str_app_nil_r.
  - apply cwf_cons in Hwf as [Hs%lacks_spec Hwf]. simpl.
    rewrite <- str_app_assoc. apply IH; [|done..].
    rewrite chars_app, elem_of_app. tauto.
  - apply cwf_cons in Hwf as [Hseg Hwf]. simpl in Hseg.
    apply andb_true_iff in Hseg as [Hseg Hbody%lacks_spec].
    apply andb_true_iff in Hseg as [Hx%lacks_spec Hmid%lacks_spec].
    simpl in *. rewrite !str_app_assoc.
    rewrite gen_curly_ents_unfold, gen_curly_step_annot by done.
    destruct fuel as [|k]; [lia|].
    rewrite (IH "}" k); [done| |done|lia].
    simpl. by intros [[=]|?%elem_of_nil]%elem_of_cons.
Qed.

Lemma index_of_char_Some s c i :
  Py.index_of s (String c "") = Some i →
  ∃ p r, s = p +:+ String c r ∧ (c ∉ chars p) ∧ String.length p = i.
Proof.
  revert i. induction s as [|a s IH]; intros i; [done|].
  cbn [Py.index_of]. destruct (Py.startswith (String a s) (String c "")) eqn:Hs.
  - intros [= <-]. apply startswith_cons in Hs as [-> _].
    exists "", s. split; [done|]. split; [apply not_elem_of_nil|done].
  - destruct (Py.index_of s (String c "")) as [k|] eqn:Hk; [|done].
    intros [= <-]. destruct (IH k eq_refl) as (p & r & -> & Hp & <-).
    exists (String a p), r. split; [done|]. split; [|done].
    apply not_elem_of_cons. split; [|done]. intros ->.
    simpl in Hs. by rewrite Ascii.eqb_refl, startswith_nil in Hs.
Qed.

Lemma find_from_found t n c :
  Py.find (Py.slice_from t (Z.of_nat n)) (String c "") ≠ (-1)%Z →
  ∃ p r,
    Py.drop n t = p +:+ String c r ∧ (c ∉ chars p)
    ∧ Py.find (Py.slice_from t (Z.of_nat n)) (String c "") = Z.of_nat (String.length p)
    ∧ Py.drop (n + String.length p) t = String c r.
Proof.
  rewrite slice_from_nat. unfold Py.find.
  destruct (Py.index_of (Py.drop n t) (String c "")) as [i|] eqn:Hi; [|done].
  intros _. apply index_of_char_Some in Hi as (p & r & Hdrop & Hp & <-).
  exists p, r. repeat split; [done..|].
  by rewrite <- drop_drop, Hdrop, drop_app.
Qed.

Lemma find_char_found s c :
  Py.find s (String c "") ≠ (-1)%Z →
  ∃ p r, s = p +:+ String c r ∧ (c ∉ chars p)
         ∧ Py.find s (String c "") = Z.of_nat (String.length p).
Proof.
  unfold Py.find.
  destruct (Py.index_of s (String c "")) as [i|] eqn:Hi; [|done].
  intros _. apply index_of_char_Some in Hi as (p & r & -> & Hp & <-).
  by exists p, r.
Qed.

(** A stretch that starts with [a] and is followed by [c], seen as a
    stretch free of [c] followed by [c]: the latter starts with [a]. *)
Lemma headed_stretch a c r p r' :
  a ≠ c → String a r = p +:+ String c r' →
  ∃ x, p = String a x ∧ r = x +:+ String c r'.
Proof.
  intros Hne. destruct p as [|b x].
  - rewrite str_app_nil_l. by intros [= ? _].
  - rewrite str_app_cons. intros [= -> ->]. by exists x.
Qed.

Lemma elem_of_chars_drop c n s : c ∈ chars (Py.drop n s) → c ∈ chars s.
Proof.
  revert s. induction n as [|n IH]; intros [|a s]; simpl; try done.
  intros ?%IH. by right.
Qed.

Lemma find_slice_absent t z c :
  c ∉ chars t → Py.find (Py.slice_from t z) (String c "") = (-1)%Z.
Proof.
  intros Hc. apply find_char_absent. unfold Py.slice_from.
  intros Hin. by apply elem_of_chars_drop in Hin.
Qed.

Lemma drop_app_le n p s :
  n ≤ String.length p → Py.drop n (p +:+ s) = Py.drop n p +:+ s.
Proof.
  revert p. induction n as [|n IH]; intros [|a p] Hn; simpl in Hn; try done; [lia|].
  rewrite str_app_cons. simpl. apply IH. lia.
Qed.

(** A round on a text whose only delimiter characters are opening
    brackets, the first of them at index 3 or later. *)
Lemma gen_curly_step_unclosed pre post :
  "["%char ∉ chars pre → 3 ≤ String.length pre →
  "]"%char ∉ chars (pre +:+ String "[" post) →
  "{"%char ∉ chars (pre +:+ String "[" post) →
  "}"%char ∉ chars (pre +:+ String "[" post) →
  ∃ yielded,
    gen_curly_step (pre +:+ String "[" post)
    = Some (yielded, Py.drop (String.length pre - 3) pre +:+ String "[" post).
Proof.
  intros Hpre Hlen Hsq Hbr1 Hbr2. unfold gen_curly_step. cbv zeta.
  rewrite !find_slice_absent by done. rewrite find_char_app by done.
  rewrite bool_decide_eq_true_2 by lia. eexists. do 2 f_equal.
  replace (Z.of_nat (String.length pre) + -1 + -1 + -1)%Z
    with (Z.of_nat (String.length pre - 3)) by lia.
  rewrite slice_from_nat. apply drop_app_le. lia.
Qed.

Lemma collect_items_is_Some fuel results texts :
  is_Some (collect_items fuel results texts)
  ↔ ∀ t, t ∈ texts → is_Some (gen_curly_ents fuel t).
Proof.
  revert results. induction texts as [|t texts IH]; intros results; simpl.
  - split; [by intros _ t ?%elem_of_nil|done].
  - destruct (gen_curly_ents fuel t) as [spans|] eqn:Hspans.
    + rewrite IH. split.
      * intros H t' [->|?]%elem_of_cons; [by rewrite Hspans|by apply H].
      * intros H t' Ht'. apply H. by right.
    + split; [by intros []|]. intros H.
      specialize (H t ltac:(left)). rewrite Hspans in H. by destruct H.
Qed.

Lemma curly_entity_items_is_Some fuel texts :
  is_Some (curly_entity_items fuel texts)
  ↔ ∀ t, t ∈ texts → is_Some (gen_curly_ents fuel t).
Proof.
  rewrite <- (collect_items_is_Some fuel []). unfold curly_entity_items.
  by destruct (collect_items fuel [] texts).
Qed.

End scans.

(** X6.  On a text made of stretches without an opening bracket and of
    annotations [[x] mid {body}] ([x] without []], [mid] without [{],
    [body] without [}]), the scan ends after one round per annotation and
    yields the pairs [("[x]", "{body}")] in order. *)
Theorem gen_curly_ents_well_formed (segs : list csegment) (fuel : nat) :
  curly_well_formed segs = true →
  length (curly_spans segs) ≤ fuel →
  gen_curly_ents fuel (render_curly segs) = Some (curly_spans segs).
Proof.
  intros Hwf Hfuel. rewrite <- (str_app_nil_l (render_curly segs)).
  apply gen_curly_ents_render; [apply not_elem_of_nil|done..].
Qed.

Lemma gen_curly_ents_well_formed_witness :
  gen_curly_ents 2 "fly to [Paris]{entity: city} from [Rome] {role: from}"
  = Some [("[Paris]", "{entity: city}"); ("[Rome]", "{role: from}")].
Proof.
  apply (gen_curly_ents_well_formed
           [CPlain "fly to "; CAnnot "Paris" "" "entity: city"; CPlain " from ";
            CAnnot "Rome" " " "role: from"] 2).
  - reflexivity.
  - simpl. lia.
Defined.

(** X7.  A round in which the three searches after the bracket succeed
    has found an annotation: the text is [pre [x] mid {body} post] with no
    [[] in [pre], no []] in [x], no [{] in [mid] and no [}] in [body]; the
    round yields [("[x]", "{body}")], continues from ["}" + post], and
    leaves less text than it was given. *)
Theorem gen_curly_step_found (text ent curly rest : string) :
  gen_curly_step text = Some ((ent, curly), rest) →
  let sq1 := Py.find text "[" in
  let sq2 := Py.find (Py.slice_from text sq1) "]" in
  let br1 := Py.find (Py.slice_from text (sq1 + sq2)) "{" in
  let br2 := Py.find (Py.slice_from text (sq1 + sq2 + br1)) "}" in
  sq2 ≠ (-1)%Z → br1 ≠ (-1)%Z → br2 ≠ (-1)%Z →
  ∃ pre x mid body post,
    text = pre +:+ "[" +:+ x +:+ "]" +:+ mid +:+ "{" +:+ body +:+ "}" +:+ post
    ∧ ("["%char ∉ chars pre) ∧ ("]"%char ∉ chars x)
    ∧ ("{"%char ∉ chars mid) ∧ ("}"%char ∉ chars body)
    ∧ ent = "[" +:+ x +:+ "]" ∧ curly = "{" +:+ body +:+ "}"
    ∧ rest = "}" +:+ post
    ∧ String.length rest < String.length text.
Proof.
  intros Hstep. cbv zeta.
  assert (Py.find text "[" ≠ (-1)%Z) as H1.
  { unfold gen_curly_step in Hstep. by case_bool_decide. }
  destruct (find_char_found _ _ H1) as (pre & r0 & Htext & Hpre & E1).
  rewrite E1. intros H2.
  destruct (find_from_found _ _ _ H2) as (p2 & r1 & D2 & Hp2 & E2 & D2').
  rewrite E2, <- Nat2Z.inj_add. intros H3.
  destruct (find_from_found _ _ _ H3) as (p3 & r2 & D3 & Hp3 & E3 & D3').
  rewrite E3, <- Nat2Z.inj_add. intros H4.
  destruct (find_from_found _ _ _ H4) as (p4 & post & D4 & Hp4 & _ & _).
  rewrite Htext, drop_app in D2.
  apply headed_stretch in D2 as (x & -> & ->); [|done].
  rewrite D2' in D3. apply headed_stretch in D3 as (mid & -> & ->); [|done].
  rewrite D3' in D4. apply headed_stretch in D4 as (body & -> & ->); [|done].
  apply not_elem_of_cons in Hp2 as [_ Hx].
  apply not_elem_of_cons in Hp3 as [_ Hmid].
  apply not_elem_of_cons in Hp4 as [_ Hbody].
  pose proof (gen_curly_step_annot pre x mid body post Hpre Hx Hmid Hbody) as Hfwd.
  assert (gen_curly_step text
          = Some (("[" +:+ x +:+ "]", "{" +:+ body +:+ "}"), "}" +:+ post)) as Hfwd'
    by (rewrite Htext; exact Hfwd).
  rewrite Hfwd' in Hstep. injection Hstep as <- <- <-. subst text.
  exists pre, x, mid, body, post. repeat split; try done.
  repeat first [rewrite str_length_app | progress simpl]. lia.
Qed.

Lemma gen_curly_step_found_witness :
  ∃ pre x mid body post,
    "say [hi] now {k: v} ok"
    = pre +:+ "[" +:+ x +:+ "]" +:+ mid +:+ "{" +:+ body +:+ "}" +:+ post
    ∧ ("["%char ∉ chars pre) ∧ ("]"%char ∉ chars x)
    ∧ ("{"%char ∉ chars mid) ∧ ("}"%char ∉ chars body)
    ∧ "[hi]" = "[" +:+ x +:+ "]" ∧ "{k: v}" = "{" +:+ body +:+ "}"
    ∧ "} ok" = "}" +:+ post
    ∧ String.length "} ok" < String.length "say [hi] now {k: v} ok".
Proof.
  apply (gen_curly_step_found "say [hi] now {k: v} ok" "[hi]" "{k: v}" "} ok");
    by vm_compute.
Defined.

(** X8.  A text whose first opening bracket stands at index 3 or later and
    which holds no closing bracket and no brace keeps the scan running
    for ever. *)
Theorem gen_curly_ents_unclosed_diverges (pre post : string) :
  lacks "[" pre = true → 3 ≤ String.length pre →
  lacks "]" (pre +:+ "[" +:+ post) = true →
  lacks "{" (pre +:+ "[" +:+ post) = true →
  lacks "}" (pre +:+ "[" +:+ post) = true →
  ∀ fuel, gen_curly_ents fuel (pre +:+ "[" +:+ post) = None.
Proof.
  change (pre +:+ "[" +:+ post) with (pre +:+ String "[" post).
  intros Hpre%lacks_spec Hlen Hsq%lacks_spec Hbr1%lacks_spec Hbr2%lacks_spec.
  destruct (gen_curly_step_unclosed pre post) as [yielded Hstep]; [done..|].
  set (pre' := Py.drop (String.length pre - 3) pre) in *.
  assert (∀ c, c ∉ chars (pre +:+ String "[" post) →
               c ∉ chars (pre' +:+ String "[" post)) as Hsub.
  { intros c Hc. rewrite chars_app, elem_of_app in *.
    intros [Hin%elem_of_chars_drop|Hin]; tauto. }
  assert (String.length pre' = 3) as Hlen' by (unfold pre'; rewrite length_drop; lia).
  destruct (gen_curly_step_unclosed pre' post) as [yielded' Hstep'];
    [|lia|by apply Hsub..|].
  { intros Hin%elem_of_chars_drop. done. }
  rewrite Hlen' in Hstep'. change (Py.drop (3 - 3) pre') with pre' in Hstep'.
  intros fuel. rewrite gen_curly_ents_unfold, Hstep.
  destruct fuel as [|k]; [done|].
  by rewrite (gen_curly_ents_stuck _ _ Hstep').
Qed.

Lemma gen_curly_ents_unclosed_diverges_witness :
  gen_curly_ents 1000 "what is [python good for" = None.
Proof.
  apply (gen_curly_ents_unclosed_diverges "what is " "python good for");
    solve [reflexivity | simpl; lia].
Defined.

(** X9.  On a corpus of such texts [curly_entity_items] returns, given one
    round per annotation of the longest text, and its items are the
    tokens of the [{body}] spans of all annotations, each once. *)
Theorem curly_entity_items_well_formed (segss : list (list csegment)) (fuel : nat) :
  forallb curly_well_formed segss = true →
  forallb (λ segs, length (curly_spans segs) <=? fuel) segss = true →
  ∃ res,
    curly_entity_items fuel (map render_curly segss) = Some res
    ∧ NoDup res
    ∧ ∀ tok, tok ∈ res
             ↔ ∃ segs span,
                 segs ∈ segss ∧ span ∈ curly_spans segs ∧ tok ∈ spec_tokens span.2.
Proof.
  rewrite !forallb_forall. intros Hwf Hfuel.
  assert (∀ segs, segs ∈ segss →
            gen_curly_ents fuel (render_curly segs) = Some (curly_spans segs)) as Hgen.
  { intros segs Hin%list_elem_of_In. apply gen_curly_ents_well_formed; [by apply Hwf|].
    by apply Nat.leb_le, Hfuel. }
  destruct (proj2 (curly_entity_items_is_Some fuel (map render_curly segss))) as [res Hres].
  { intros t (segs & -> & Hin)%list_elem_of_fmap. by rewrite Hgen. }
  exists res. split; [done|]. split; [by eapply NoDup_curly_entity_items|].
  intros tok. rewrite (elem_of_curly_entity_items _ _ _ Hres). split.
  - intros (text & spans & span & (segs & -> & Hin)%list_elem_of_fmap & Hs & Hspan & Htok).
    rewrite Hgen in Hs by done. injection Hs as <-.
    exists segs, span. by rewrite elem_of_spec_tokens.
  - intros (segs & span & Hin & Hspan & Htok%elem_of_spec_tokens).
    exists (render_curly segs), (curly_spans segs), span.
    split; [by apply list_elem_of_fmap_2|]. split; [by apply Hgen|done].
Qed.

Lemma curly_entity_items_well_formed_witness :
  ∃ res,
    curly_entity_items 1 ["fly to [Paris]{entity: city}"; "hello"; "[x]{role: to}"]
    = Some res
    ∧ NoDup res
    ∧ ∀ tok, tok ∈ res
             ↔ ∃ segs span,
                 segs ∈ [[CPlain "fly to "; CAnnot "Paris" "" "entity: city"];
                         [CPlain "hello"]; [CAnnot "x" "" "role: to"]]
                 ∧ span ∈ curly_spans segs ∧ tok ∈ spec_tokens span.2.
Proof.
  apply (curly_entity_items_well_formed
           [[CPlain "fly to "; CAnnot "Paris" "" "entity: city"];
            [CPlain "hello"]; [CAnnot "x" "" "role: to"]] 1); reflexivity.
Defined.

(** X10.  [curly_entity_items] returns exactly when the scan of every text
    ends; a single text whose scan does not end keeps the whole call from
    returning, whatever the other texts are. *)
Theorem curly_entity_items_blocked :
  (∀ fuel texts,
     is_Some (curly_entity_items fuel texts)
     ↔ ∀ t, t ∈ texts → is_Some (gen_curly_ents fuel t))
  ∧ (∀ texts t,
       t ∈ texts → (∀ fuel, gen_curly_ents fuel t = None) →
       ∀ fuel, curly_entity_items fuel texts = None).
Proof.
  split; [apply curly_entity_items_is_Some|].
  intros texts t Hin Hloop fuel.
  destruct (curly_entity_items fuel texts) as [res|] eqn:Hres; [|done].
  destruct (proj1 (curly_entity_items_is_Some fuel texts) ltac:(by rewrite Hres) t Hin)
    as [spans Hspans].
  by rewrite Hloop in Hspans.
Qed.

Lemma curly_entity_items_blocked_witness :
  curly_entity_items 1000 ["[x]{entity: proglang}"; "["] = None.
Proof.
  apply (proj2 curly_entity_items_blocked _ "[").
  - right. left.
  - by apply (gen_curly_ents_stuck "[" ("", "")).
Defined.

(** X11.  The items of [curly_entity_items] do not depend on the order of
    the texts. *)
Theorem curly_entity_items_permutation (fuel : nat) (texts texts' res : list string) :
  texts ≡ₚ texts' →
  curly_entity_items fuel texts = Some res →
  ∃ res', curly_entity_items fuel texts' = Some res' ∧ res ≡ₚ res'.
Proof.
  intros Hperm Hres.
  destruct (proj2 (curly_entity_items_is_Some fuel texts')) as [res' Hres'].
  { intros t Ht. rewrite <- Hperm in Ht.
    apply (proj1 (curly_entity_items_is_Some fuel texts)); [by rewrite Hres|done]. }
  exists res'. split; [done|].
  apply NoDup_Permutation; [by eapply NoDup_curly_entity_items..|].
  intros tok. rewrite (elem_of_curly_entity_items _ _ _ Hres),
    (elem_of_curly_entity_items _ _ _ Hres').
  by setoid_rewrite Hperm.
Qed.

Lemma curly_entity_items_permutation_witness :
  ∃ res',
    curly_entity_items 1 ["[b]{k: w}"; "[a]{entity: city}"] = Some res'
    ∧ ["w"; "k"; "city"; "entity"] ≡ₚ res'.
Proof.
  apply (curly_entity_items_permutation 1 ["[a]{entity: city}"; "[b]{k: w}"]).
  - apply Permutation_swap.
  - vm_compute. reflexivity.
Defined.

(** X12.  The stripper treats every text on its own: the output for a
    corpus put together from two corpora is the two outputs put
    together. *)
Theorem replace_ent_assignment_app (texts1 texts2 : list string) :
  replace_ent_assignment (texts1 ++ texts2)
  = replace_ent_assignment texts1 ++ replace_ent_assignment texts2.
Proof. rewrite !replace_ent_assignment_map. apply map_app. Qed.


